(** * DVID: key space contexts, label index (Meta) maintenance and
      sparse-volume run-length encoding.

    A shallow embedding of
      - storage/context.go            (module [Storage]),
      - the labelarray label index    (module [LabelIndex]),
      - the labelarray RLE scanners   (module [RLE]),
      - the PUT entry point           (module [Put]),
    together with the properties established for them.

    Conventions.  A Go [byte] is a [Z] in [0, 256); a [uint64], [int64],
    [int32] is a [Z] whose wrap-around is written out with [wrap_u64],
    [wrap_i64], [wrap_i32].  A Go call that can end in a run-time panic
    (index or slice out of range, nil dereference) returns an [outcome],
    which keeps the panic apart from a returned [error] value. *)

From Stdlib Require Import ZArith Lia.
From stdpp Require Import strings gmap list sorting.

Local Open Scope Z_scope.

(** ** Outcomes of a Go call *)

Inductive outcome (A : Type) : Type :=
| Returned (a : A)          (* returned (a, nil) *)
| Failed (msg : string)     (* returned (zero value, err) with err != nil *)
| Panicked.                 (* run-time panic *)
Arguments Returned {A} a.
Arguments Failed {A} msg.
Arguments Panicked {A}.

Definition obind {A B} (o : outcome A) (k : A -> outcome B) : outcome B :=
  match o with
  | Returned a => k a
  | Failed msg => Failed msg
  | Panicked => Panicked
  end.

Notation "'let!' x ':=' o 'in' k" := (obind o (fun x => k))
  (at level 10, x name, o at level 100, k at level 200, only parsing).

(** ** Machine integers *)

Definition wrap_u64 (z : Z) : Z := z mod 2 ^ 64.
Definition wrap_u32 (z : Z) : Z := z mod 2 ^ 32.
Definition wrap_i64 (z : Z) : Z := (z + 2 ^ 63) mod 2 ^ 64 - 2 ^ 63.
Definition wrap_i32 (z : Z) : Z := (z + 2 ^ 31) mod 2 ^ 32 - 2 ^ 31.

Definition byte : Type := Z.

(** [binary.BigEndian.PutUint32] into a fresh 4-byte buffer. *)
Definition be32 (v : Z) : list byte :=
  [ (v / 2 ^ 24) mod 256; (v / 2 ^ 16) mod 256; (v / 2 ^ 8) mod 256; v mod 256 ].

(** [binary.LittleEndian.PutUint64] into a fresh 8-byte buffer. *)
Definition le64 (v : Z) : list byte :=
  (fun k => (v / 2 ^ (8 * Z.of_nat k)) mod 256) <$> seq 0 8.

(** [binary.LittleEndian.Uint64] of the first eight bytes. *)
Fixpoint le_decode (bs : list byte) : Z :=
  match bs with
  | [] => 0
  | b :: bs' => b + 256 * le_decode bs'
  end.

(** ** Go slices of bytes: indexing and slicing with their bounds checks *)

(** [s[i]]: panics unless [0 <= i < len(s)]. *)
Definition go_index (s : list byte) (i : Z) : outcome byte :=
  if bool_decide (0 <= i < Z.of_nat (length s)) then
    match s !! Z.to_nat i with
    | Some b => Returned b
    | None => Panicked
    end
  else Panicked.

(** [s[lo:hi]] on a slice whose capacity equals its length: panics unless
    [0 <= lo <= hi <= len(s)]. *)
Definition go_slice (s : list byte) (lo hi : Z) : outcome (list byte) :=
  if bool_decide (0 <= lo /\ lo <= hi /\ hi <= Z.of_nat (length s)) then
    Returned (take (Z.to_nat (hi - lo)) (drop (Z.to_nat lo) s))
  else Panicked.

(** * storage/context.go *)

Module Storage.

(** const ( metadataKeyPrefix byte = iota; dataKeyPrefix ) *)
Definition metadataKeyPrefix : byte := 0.
Definition dataKeyPrefix : byte := 1.

(** Modelled from the spec: [dvid.InstanceIDSize] and [dvid.VersionIDSize]
    (package dvid is not part of the sources); the key layout gives both
    identifiers four bytes, [InstanceID(4)] and [VersionID(4)]. *)
Definition InstanceIDSize : Z := 4.
Definition VersionIDSize : Z := 4.

(** Modelled from the spec: [dvid.InstanceID.Bytes] and
    [dvid.VersionID.Bytes], the four-byte rendering of a 32-bit identifier
    (big-endian, as every key component, so that keys sort numerically). *)
Definition InstanceID_Bytes (id : Z) : list byte := be32 (wrap_u32 id).
Definition VersionID_Bytes (v : Z) : list byte := be32 (wrap_u32 v).

(** type DataContext struct { data dvid.Data; version dvid.VersionID };
    of [data] only [InstanceID()] is used by the key codec. *)
Record DataContext : Type := NewDataContext {
  instance : Z;
  version : Z;
}.

Definition err_metadata : string :=
  "Cannot extract MetadataContext index from different key".
Definition err_data : string :=
  "Cannot extract DataContext index from different key".

Module MetadataContext.

(** append([]byte{metadataKeyPrefix}, index...) *)
Definition ConstructKey (index : list byte) : list byte :=
  [metadataKeyPrefix] ++ index.

Definition IndexFromKey (key : list byte) : outcome (list byte) :=
  let! k0 := go_index key 0 in
  if bool_decide (k0 <> metadataKeyPrefix) then Failed err_metadata
  else go_slice key 1 (Z.of_nat (length key)).

End MetadataContext.

Definition ConstructKey (ctx : DataContext) (index : list byte) : list byte :=
  let key := [dataKeyPrefix] ++ InstanceID_Bytes (instance ctx) in
  let key := key ++ index in
  key ++ VersionID_Bytes (version ctx).

Definition IndexFromKey (ctx : DataContext) (key : list byte)
  : outcome (list byte) :=
  let! k0 := go_index key 0 in
  if bool_decide (k0 <> dataKeyPrefix) then Failed err_data
  else
    let start := 1 + InstanceIDSize in
    let end_ := Z.of_nat (length key) - VersionIDSize in
    go_slice key start end_.

Definition MinVersionKey (ctx : DataContext) (index : list byte) : list byte :=
  let key := [dataKeyPrefix] ++ InstanceID_Bytes (instance ctx) in
  let key := key ++ index in
  key ++ VersionID_Bytes 0.

(** Modelled from the spec: [dvid.MaxVersionID], of package dvid; the
    maximal key pins the version suffix to MAX, the largest 32-bit
    identifier. *)
Definition MaxVersionID : Z := 2 ^ 32 - 1.

Definition MaxVersionKey (ctx : DataContext) (index : list byte) : list byte :=
  let key := [dataKeyPrefix] ++ InstanceID_Bytes (instance ctx) in
  let key := key ++ index in
  key ++ VersionID_Bytes MaxVersionID.

(** [func (ctx *DataContext) VersionID() dvid.VersionID] and
    [func (ctx MetadataContext) VersionID()]. *)
Definition VersionID (ctx : DataContext) : Z := version ctx.
Definition Metadata_VersionID : Z := 0.

(** [KeyToIndexZYX]: the key is parsed under the zero context
    [&DataContext{}]; [IndexFromBytes] is [dvid.IndexZYX.IndexFromBytes], of
    package dvid.  Each error is wrapped in a message of this function. *)
Definition KeyToIndexZYX {IndexZYX : Type}
    (IndexFromBytes : list byte -> outcome IndexZYX) (k : list byte)
  : outcome IndexZYX :=
  let ctx := NewDataContext 0 0 in
  match IndexFromKey ctx k with
  | Panicked => Panicked
  | Failed err => Failed ("Cannot convert key to IndexZYX: " ++ err)
  | Returned indexBytes =>
      match IndexFromBytes indexBytes with
      | Panicked => Panicked
      | Failed err => Failed ("Cannot recover ZYX index from key: " ++ err)
      | Returned zyx => Returned zyx
      end
  end.

(** The order of the key-value store: byte strings compared byte by
    byte, a proper prefix first. *)
Fixpoint key_leb (a b : list byte) : bool :=
  match a, b with
  | [], _ => true
  | _ :: _, [] => false
  | x :: a', y :: b' =>
      if x <? y then true else if y <? x then false else key_leb a' b'
  end.

End Storage.

(** * The label index of datatype labelarray *)

Module LabelIndex.

(** [dvid.IZYXString]: a Go string holding a packed block coordinate,
    twelve bytes when well formed.  Go compares strings byte-wise. *)
Definition IZYXString : Type := list byte.

Fixpoint izyx_leb (a b : IZYXString) : bool :=
  match a, b with
  | [], _ => true
  | _ :: _, [] => false
  | x :: a', y :: b' =>
      if x <? y then true else if y <? x then false else izyx_leb a' b'
  end.

Definition izyx_le (a b : IZYXString) : Prop := Is_true (izyx_leb a b).

#[global] Instance izyx_le_dec : RelDecision izyx_le.
Proof. intros a b. unfold izyx_le. apply _. Defined.

(** [sort.Sort] on a [dvid.IZYXSlice]; its [Less] is the string order. *)
Definition sort_izyx (l : list IZYXString) : list IZYXString :=
  merge_sort izyx_le l.

(** type Meta struct { Voxels uint64; Blocks dvid.IZYXSlice } *)
Record Meta : Type := mkMeta {
  Voxels : Z;
  Blocks : list IZYXString;
}.

(** The zero value [Meta{}]. *)
Definition Meta_zero : Meta := mkMeta 0 [].

(** [copy(buf[off:off+12], string(izyx))] into a zeroed buffer. *)
Definition copy12 (izyx : IZYXString) : list byte :=
  take 12 (izyx ++ replicate 12 0).

Definition MarshalBinary (m : Meta) : list byte :=
  le64 (Voxels m) ++ concat (copy12 <$> Blocks m).

(** Modelled from the spec: [dvid.IZYXSlice.UnmarshalBinary], of package
    dvid; the binary form is a concatenation of 12-byte IZYX entries whose
    number is implicit from the byte count. *)
Fixpoint split12 (n : nat) (b : list byte) : list IZYXString :=
  match n with
  | O => []
  | S n' => take 12 b :: split12 n' (drop 12 b)
  end.

Definition IZYXSlice_UnmarshalBinary (b : list byte) : outcome (list IZYXString) :=
  if bool_decide (Z.of_nat (length b) mod 12 = 0)
  then Returned (split12 (length b / 12) b)
  else Failed "cannot unmarshal IZYXSlice".

Definition UnmarshalBinary (b : list byte) : outcome Meta :=
  if bool_decide (Z.of_nat (length b) < 8) then
    Failed "cannot unmarshal bytes into Meta"
  else
    let voxels := le_decode (take 8 b) in
    let! blocks := IZYXSlice_UnmarshalBinary (drop 8 b) in
    Returned (mkMeta voxels blocks).

(** Modelled from the spec: [dvid.IZYXSlice.Delete], of package dvid; it
    deletes the given (sorted) blocks from the receiver. *)
Definition IZYXSlice_Delete (blocks absent : list IZYXString) : list IZYXString :=
  filter (fun b => b ∉ absent) blocks.

(** Modelled from the spec: [dvid.IZYXSlice.Merge], of package dvid; it
    merges the given sorted blocks into the sorted receiver, which stays
    ascending and free of duplicates. *)
Fixpoint insert_izyx (b : IZYXString) (l : list IZYXString) : list IZYXString :=
  match l with
  | [] => [b]
  | c :: l' =>
      if bool_decide (b = c) then l
      else if izyx_leb b c then b :: l
      else c :: insert_izyx b l'
  end.

Definition IZYXSlice_Merge (blocks present : list IZYXString) : list IZYXString :=
  foldl (fun acc b => insert_izyx b acc) blocks present.

(** type labelDiff struct { delta int32; present bool } *)
Record labelDiff : Type := mkDiff {
  delta : Z;
  present : bool;
}.

Definition labelDiff_zero : labelDiff := mkDiff 0 false.

(** type blockDiffMap map[dvid.IZYXString]labelDiff
    type labelDiffMap map[uint64]blockDiffMap *)
Abbreviation blockDiffMap := (gmap IZYXString labelDiff).
Abbreviation labelDiffMap := (gmap Z (gmap IZYXString labelDiff)).

(** ** Meta.applyChanges

    The body of [for block, diff := range bdm]: the running voxel count
    and the two slices [present] and [absent]. *)
Definition applyChanges_step (acc : Z * list IZYXString * list IZYXString)
    (entry : IZYXString * labelDiff)
  : Z * list IZYXString * list IZYXString :=
  let '(voxels, present_, absent) := acc in
  let '(block, diff) := entry in
  let voxels := wrap_u64 (wrap_i64 (wrap_i64 voxels + delta diff)) in
  if present diff then (voxels, present_ ++ [block], absent)
  else (voxels, present_, absent ++ [block]).

(** [applyChanges_in order m]: [m.applyChanges(bdm)] when the [range]
    statement visits the entries of [bdm] in the sequence [order].  Go
    leaves that sequence unspecified. *)
Definition applyChanges_in (order : list (IZYXString * labelDiff)) (m : Meta) : Meta :=
  let '(voxels, present_, absent) :=
    foldl applyChanges_step (Voxels m, [], []) order in
  let present_ :=
    if bool_decide (1 < length present_)%nat then sort_izyx present_ else present_ in
  let absent :=
    if bool_decide (1 < length absent)%nat then sort_izyx absent else absent in
  let blocks := IZYXSlice_Delete (Blocks m) absent in
  let blocks := IZYXSlice_Merge blocks present_ in
  mkMeta voxels blocks.

Definition applyChanges (bdm : blockDiffMap) (m : Meta) : Meta :=
  applyChanges_in (map_to_list bdm) m.

(** The sum of the deltas of a sequence of entries. *)
Definition sum_deltas (order : list (IZYXString * labelDiff)) : Z :=
  foldr (fun e s => delta e.2 + s) 0 order.

(** The bytes of a little-endian rendering, least significant first. *)
Fixpoint le_bytes (n : nat) (v : Z) : list byte :=
  match n with
  | O => []
  | S n' => v mod 256 :: le_bytes n' (v / 256)
  end.

(** A Meta with a uint64 voxel count and 12-byte block coordinates. *)
Definition Meta_ok (m : Meta) : Prop :=
  0 <= Voxels m < 2 ^ 64 /\ Forall (fun b => length b = 12%nat) (Blocks m).

End LabelIndex.

(** * MetaCache: the per-worker cache of label Metas *)

Module Cache.
Import LabelIndex.

(** Addresses of [timedMeta] objects ([*timedMeta]). *)
Definition loc : Type := nat.

(** type timedMeta struct { label uint64; meta *Meta; t time.Time }.
    The Meta behind [meta] has no alias but the worker's local variable, so
    the object is kept by value; [t] is a reading of the clock. *)
Record timedMeta : Type := mkTimed {
  label : Z;
  meta : Meta;
  t : Z;
}.

(** What a MetaCache refers to: the [timedMeta] objects, the map object
    behind [avail] and the backing array behind [list].  All three are
    shared by every copy of the struct. *)
Record heap : Type := mkHeap {
  objs : gmap loc timedMeta;
  next : loc;                     (* the next address [new] hands out *)
  avail : gmap Z loc;
  array : list (option loc);      (* [cap(list)] slots; [None] is nil *)
}.

(** type MetaCache struct { size uint16; avail map[...]; list cacheList }:
    the struct value itself, that is [size] and the length of the slice
    header [list] (its array and [avail] are references into the heap). *)
Record MetaCache : Type := mkCache {
  size : Z;
  list_len : nat;
}.

Definition wrap_u16 (z : Z) : Z := z mod 2 ^ 16.

Definition defaultCacheSize : Z := 50.

Definition MakeMetaCache (size : Z) : MetaCache * heap :=
  let size := if bool_decide (size = 0) then defaultCacheSize else size in
  (mkCache size 0,
   mkHeap ∅ 0%nat ∅ (replicate (Z.to_nat size) None)).

(** [func (m MetaCache) GetLabelMeta(label uint64) *Meta]; [now] is the
    value of [time.Now()].  The result [None] is the nil pointer. *)
Definition GetLabelMeta (m : MetaCache) (now : Z) (lbl : Z) (h : heap)
  : outcome (option Meta * heap) :=
  match avail h !! lbl with
  | Some p =>
      match objs h !! p with
      | Some tm =>
          let tm := mkTimed (label tm) (meta tm) now in
          Returned (Some (meta tm),
                    mkHeap (<[p := tm]> (objs h)) (next h) (avail h) (array h))
      | None => Panicked
      end
  | None => Returned (None, h)
  end.

(** [cacheList.Less]: [c[a].t.Before(c[b].t)]; ascending order of [t]. *)
Definition t_le (a b : loc * Z) : Prop := a.2 <= b.2.

#[global] Instance t_le_dec : RelDecision t_le.
Proof. intros a b. unfold t_le. apply _. Defined.

(** The elements [list[0:len]] with the time stamps [Less] reads;
    [None] when one of them is nil. *)
Definition stamped (h : heap) (l : list (option loc)) : option (list (loc * Z)) :=
  mapM (fun o => p ← o; tm ← objs h !! p; Some (p, t tm)) l.

(** [sort.Sort(m.list)]. *)
Definition sort_cacheList (l : list (loc * Z)) : list loc :=
  (merge_sort t_le l).*1.

(** [func (m MetaCache) AddLabelMeta(label uint64, meta *Meta)].  The
    receiver is a copy of the struct: the caller's [size] and [len(list)]
    stay as they are, only the heap changes. *)
Definition AddLabelMeta (m : MetaCache) (now : Z) (lbl : Z) (mt : Meta) (h : heap)
  : outcome heap :=
  match avail h !! lbl with
  | Some p =>
      match objs h !! p with
      | Some tm =>
          Returned (mkHeap (<[p := mkTimed (label tm) mt now]> (objs h))
                           (next h) (avail h) (array h))
      | None => Panicked
      end
  | None =>
      let newtm := next h in
      let objs1 := <[newtm := mkTimed lbl mt now]> (objs h) in
      if bool_decide (Z.of_nat (list_len m) = size m) then
        match stamped h (take (list_len m) (array h)) with
        | None => Panicked
        | Some l =>
            let sorted := sort_cacheList l in
            let last := Z.to_nat (wrap_u16 (size m - 1)) in
            match sorted !! last with
            | None => Panicked
            | Some evicted =>
                match objs h !! evicted with
                | None => Panicked
                | Some ev =>
                    let arr := (Some <$> sorted) ++ drop (list_len m) (array h) in
                    Returned (mkHeap objs1 (S newtm)
                                     (delete (label ev) (avail h))
                                     (<[last := Some newtm]> arr))
                end
            end
        end
      else
        (* append writes slot [len] when [len < cap] and a fresh array
           otherwise; the longer slice header is dropped with the copy *)
        Returned (mkHeap objs1 (S newtm) (avail h)
                         (<[list_len m := Some newtm]> (array h)))
  end.

(** A use of the cache by its owner: a lookup or an insertion. *)
Inductive cache_op : Type :=
| OpGet (lbl : Z)
| OpAdd (lbl : Z) (mt : Meta).

(** The calls [ops] made in turn through a [*MetaCache], the clock
    advancing by one at each call; the result lists what the lookups
    returned. *)
Fixpoint run_ops (m : MetaCache) (now : Z) (ops : list cache_op) (h : heap)
  : outcome (list (option Meta) * heap) :=
  match ops with
  | [] => Returned ([], h)
  | OpGet lbl :: rest =>
      let! r := GetLabelMeta m now lbl h in
      let! rs := run_ops m (now + 1) rest r.2 in
      Returned (r.1 :: rs.1, rs.2)
  | OpAdd lbl mt :: rest =>
      let! h := AddLabelMeta m now lbl mt h in
      run_ops m (now + 1) rest h
  end.

End Cache.

(** * The mutation pipeline: block changes, aggregator, label worker *)

Module Pipeline.
Import LabelIndex.

(** const presentOld = uint8(0x01); const presentNew = uint8(0x02) *)
Definition presentOld : Z := 1.
Definition presentNew : Z := 2.

(** type blockChange struct {
      block dvid.IZYXString; present map[uint64]uint8; delta map[uint64]int32 } *)
Record blockChange : Type := mkChange {
  bc_block : IZYXString;
  bc_present : gmap Z Z;
  bc_delta : gmap Z Z;
}.

(** [bc.present[label] |= flag]; a missing entry reads as 0. *)
Definition or_flag (flag : Z) (pm : gmap Z Z) (lbl : Z) : gmap Z Z :=
  <[lbl := Z.lor (default 0 (pm !! lbl)) flag]> pm.

(** [handleIndexBlockMutate]: the change sent on the channel for a mutated
    block, from the labels of the previous and of the new block. *)
Definition handleIndexBlockMutate (index : IZYXString) (prev new : list Z) : blockChange :=
  let pm := foldl (or_flag presentOld) ∅ prev in
  let pm := foldl (or_flag presentNew) pm new in
  mkChange index pm ∅.

(** [handleIndexBlockIngest]: the change sent for an ingested block. *)
Definition handleIndexBlockIngest (index : IZYXString) (new : list Z) : blockChange :=
  mkChange index (foldl (or_flag presentNew) ∅ new) ∅.

(** [bdm, found := ldm[label]; if !found { bdm = make(blockDiffMap);
    ldm[label] = bdm }]. *)
Definition bdm_of (ldm : labelDiffMap) (lbl : Z) : labelDiffMap * blockDiffMap :=
  match ldm !! lbl with
  | Some bdm => (ldm, bdm)
  | None => (<[lbl := ∅]> ldm, ∅)
  end.

(** The body of [for label, flag := range change.present].  [bdm] is a
    map, so [bdm[change.block] = diff] is seen through [ldm[label]]. *)
Definition present_step (block : IZYXString) (ldm : labelDiffMap) (e : Z * Z)
  : labelDiffMap :=
  let '(lbl, flag) := e in
  let '(ldm, bdm) := bdm_of ldm lbl in
  if flag =? 1 then <[lbl := <[block := mkDiff 0 false]> bdm]> ldm
  else if flag =? 2 then <[lbl := <[block := mkDiff 0 true]> bdm]> ldm
  else if flag =? 3 then <[lbl := <[block := mkDiff 0 true]> bdm]> ldm
  else ldm.

(** The body of [for label, delta := range change.delta].  [diff] is a
    copy of the struct held in the map; the loop adds to the copy and has
    no [bdm[change.block] = diff]. *)
Definition delta_step (block : IZYXString) (ldm : labelDiffMap) (e : Z * Z)
  : labelDiffMap :=
  let '(lbl, d) := e in
  let '(ldm, bdm) := bdm_of ldm lbl in
  let diff := default labelDiff_zero (bdm !! block) in
  let diff := mkDiff (wrap_i32 (delta diff + d)) (present diff) in
  ldm.

(** One [blockChange] received from the channel. *)
Definition aggregate_change (ldm : labelDiffMap) (change : blockChange) : labelDiffMap :=
  let ldm := foldl (present_step (bc_block change)) ldm
                   (map_to_list (bc_present change)) in
  foldl (delta_step (bc_block change)) ldm (map_to_list (bc_delta change)).

(** type labelChange struct { v dvid.VersionID; label uint64; bdm blockDiffMap } *)
Record labelChange : Type := mkLabelChange {
  lc_v : Z;
  lc_label : Z;
  lc_bdm : gmap IZYXString labelDiff;
}.

(** The [labelDiffMap] built from the changes received until the channel
    is closed. *)
Definition aggregate (changes : list blockChange) : labelDiffMap :=
  foldl aggregate_change ∅ changes.


(** The label index records of one version: key [NewLabelIndexTKey(label)],
    value the serialized Meta.  A label without a record reads as zero
    bytes.  Modelled from the spec: the envelope written by
    [dvid.SerializeData] and read by [dvid.DeserializeData] is lossless
    (LZ4, no checksum), so the record is kept as the serialization it
    wraps. *)
Abbreviation kvstore := (gmap Z (list byte)).

Definition store_Get (kv : kvstore) (lbl : Z) : list byte :=
  default [] (kv !! lbl).

(** [dvid.Bounds.Block] when it is set: the blocks within the bounds.
    Modelled from the spec: [IZYXSlice.FitToBounds] clips the block set to
    the bounds. *)
Definition Bounds : Type := option (IZYXString -> bool).

(** The loop of [Data.GetLabelMeta] over the label set, which is
    ranged over in the sequence [lbls]. *)
Fixpoint GetLabelMeta_loop (kv : kvstore) (n : nat) (lbls : list Z)
    (voxels : Z) (blocks : list IZYXString) : outcome (Z * list IZYXString) :=
  match lbls with
  | [] => Returned (voxels, blocks)
  | lbl :: rest =>
      let val := store_Get kv lbl in
      if bool_decide (length val ≠ 0%nat) then
        let! meta := UnmarshalBinary val in
        if bool_decide (n = 1%nat) then
          GetLabelMeta_loop kv n rest (Voxels meta) (Blocks meta)
        else if bool_decide (0 < length (Blocks meta))%nat then
          GetLabelMeta_loop kv n rest (wrap_u64 (voxels + Voxels meta))
                            (IZYXSlice_Merge blocks (Blocks meta))
        else GetLabelMeta_loop kv n rest voxels blocks
      else GetLabelMeta_loop kv n rest voxels blocks
  end.

Definition GetLabelMeta (kv : kvstore) (lbls : list Z) (bounds : Bounds)
  : outcome Meta :=
  let! vb := GetLabelMeta_loop kv (length lbls) lbls 0 [] in
  match bounds with
  | Some inside => Returned (mkMeta 0 (filter (fun b => Is_true (inside b)) vb.2))
  | None => Returned (mkMeta vb.1 vb.2)
  end.

(** [Data.PutLabelMeta]: serialize and [store.Put] under the label's
    index key, whatever the Meta holds. *)
Definition PutLabelMeta (kv : kvstore) (lbl : Z) (meta : Meta) : kvstore :=
  <[lbl := MarshalBinary meta]> kv.

(** The state of one [indexLabels] goroutine: its cache, the clock read by
    [time.Now()] and the label index records. *)
Record worker : Type := mkWorker {
  w_cache : Cache.MetaCache;
  w_heap : Cache.heap;
  w_clock : Z;
  w_kv : kvstore;
}.

(** [indexLabels] starts with [cache := MakeMetaCache(100)]. *)
Definition worker_start (clock : Z) (kv : kvstore) : worker :=
  let '(c, h) := Cache.MakeMetaCache 100 in mkWorker c h clock kv.

(** One iteration of [for change := range ch] in [indexLabels].  An error
    of [GetLabelMeta] is logged and the change is skipped. *)
Definition indexLabels_step (w : worker) (change : labelChange) : outcome worker :=
  let c := w_cache w in
  let now := w_clock w in
  let! r := Cache.GetLabelMeta c now (lc_label change) (w_heap w) in
  let '(cached, h) := r in
  let loaded :=
    match cached with
    | Some meta => Returned meta
    | None => GetLabelMeta (w_kv w) [lc_label change] None
    end in
  match loaded with
  | Panicked => Panicked
  | Failed _ => Returned (mkWorker c h (now + 1) (w_kv w))
  | Returned meta =>
      let meta := applyChanges (lc_bdm change) meta in
      let! h := Cache.AddLabelMeta c (now + 1) (lc_label change) meta h in
      Returned (mkWorker c h (now + 2)
                         (PutLabelMeta (w_kv w) (lc_label change) meta))
  end.

Fixpoint indexLabels (w : worker) (changes : list labelChange) : outcome worker :=
  match changes with
  | [] => Returned w
  | change :: rest =>
      let! w := indexLabels_step w change in indexLabels w rest
  end.



(** The entry of block [block] in the diff map of label [lbl], if any. *)
Definition entry (ldm : labelDiffMap) (lbl : Z) (block : IZYXString)
  : option labelDiff :=
  ldm !! lbl ≫= fun bdm => bdm !! block.

(** The read-modify-write of one label change on the label index
    records alone: load the Meta, apply the diffs, store it; a change whose
    Meta cannot be loaded is dropped. *)
Definition read_modify_write (kv : kvstore) (change : labelChange) : kvstore :=
  match GetLabelMeta kv [lc_label change] None with
  | Returned meta =>
      PutLabelMeta kv (lc_label change) (applyChanges (lc_bdm change) meta)
  | _ => kv
  end.

(** A worker whose cache is as [MakeMetaCache] left it, up to the heap
    objects and the array slots: no label in [avail]. *)
Definition cache_unused (w : worker) : Prop :=
  Cache.avail (w_heap w) = ∅
  /\ Z.of_nat (Cache.list_len (w_cache w)) ≠ Cache.size (w_cache w).

(** The flags the aggregator acts on: 0x01, 0x02 and 0x03. *)
Definition flag_ok (flag : Z) : bool :=
  (flag =? 1) || (flag =? 2) || (flag =? 3).



End Pipeline.

(** * Sparse-volume retrieval *)

Module SparseVol.
Import LabelIndex Pipeline.

(** [labels.Mapping], the merge mapping of package labels, through the two
    operations used here.  [FinalLabel] returns the label the given one
    was merged into and whether there is one. *)
Record Mapping : Type := mkMapping {
  FinalLabel : Z -> Z * bool;
  ConstituentLabels : Z -> list Z;
}.

(** [binary.LittleEndian.PutUint32]. *)
Definition le32 (v : Z) : list byte :=
  (fun k => (v / 2 ^ (8 * Z.of_nat k)) mod 256) <$> seq 0 4.

(** The sparse-volume header: [dvid.EncodingBinary], 3 dimensions, run
    dimension 0, a reserved byte, and two uint32 placeholders. *)
Definition header : list byte := [0; 3; 0; 0] ++ le32 0 ++ le32 0.

(** [binary.LittleEndian.PutUint32(serialization[8:12], n)]. *)
Definition put_spans (serialization : list byte) (n : Z) : list byte :=
  take 8 serialization ++ le32 (wrap_u32 n) ++ drop 12 serialization.

(** The body of [for _, izyx := range meta.Blocks] that keeps the blocks
    within the block bounds; [within] stands for [izyx.Unpack()] and the
    [Outside] tests, and fails when the coordinate cannot be decoded. *)
Fixpoint clip_blocks (within : IZYXString -> outcome bool)
    (blocks : list IZYXString) : outcome (list IZYXString) :=
  match blocks with
  | [] => Returned []
  | izyx :: rest =>
      let! keep := within izyx in
      let! indices := clip_blocks within rest in
      Returned (if keep then izyx :: indices else indices)
  end.

Section Retrieval.

(** The collaborators outside this package: the block-bounds tests on X/Y
    and on X/Y/Z, the decoders that fetch the blocks of the given indices
    and write their runs ([labels.WriteRLEs], resp. the pool of
    [processBlocksToRLEs] workers, which also counts the runs), and
    [IZYXSlice.WriteSerializedRLEs] with its span count. *)
Variable within_xy within_xyz : Bounds -> IZYXString -> outcome bool.
Variable write_rles : list IZYXString -> list Z -> Bounds -> outcome (list byte).
Variable slow_rles : list IZYXString -> list Z -> Bounds -> outcome (list byte * Z).
Variable coarse_rles : list IZYXString -> outcome (list byte * Z).

(** [GetMappedLabelMeta]: the named results [(meta, lbls, err)];
    [None] is a nil [*Meta], resp. a nil label set. *)
Definition GetMappedLabelMeta (mapping : option Mapping) (kv : kvstore)
    (lbl : Z) (bounds : Bounds) : outcome (option Meta * option (list Z)) :=
  let merged :=
    match mapping with
    | Some mp => (FinalLabel mp lbl).2
    | None => false
    end in
  if merged then Returned (None, None)
  else
    let lbls :=
      match mapping with
      | None => [lbl]
      | Some mp => ConstituentLabels mp lbl
      end in
    let! meta := GetLabelMeta kv lbls bounds in
    Returned (Some meta, Some lbls).

(** [getLegacyRLEs]; a nil payload is the empty byte string.  The first
    use of [meta] is [len(meta.Blocks)], which dereferences it. *)
Definition getLegacyRLEs (kv : kvstore) (meta : option Meta)
    (lbls : option (list Z)) (bounds : Bounds) : outcome (list byte) :=
  match meta with
  | None => Panicked
  | Some m =>
      let! indices := clip_blocks (within_xyz bounds) (Blocks m) in
      if bool_decide (length indices = 0%nat) then Returned []
      else
        let! runs := write_rles indices (default [] lbls) bounds in
        let serialization := header ++ runs in
        let numRuns :=
          Z.shiftr (wrap_u32 (Z.of_nat (length serialization) - 12)) 4 in
        if bool_decide (numRuns = 0) then Returned []
        else Returned (put_spans serialization numRuns)
  end.

(** [getLegacySlowRLEs]; it too starts from [len(meta.Blocks)]. *)
Definition getLegacySlowRLEs (kv : kvstore) (meta : option Meta)
    (lbls : option (list Z)) (bounds : Bounds) : outcome (list byte) :=
  match meta with
  | None => Panicked
  | Some m =>
      let! indices := clip_blocks (within_xy bounds) (Blocks m) in
      if bool_decide (length indices = 0%nat) then Returned []
      else
        let! r := slow_rles indices (default [] lbls) bounds in
        let '(runs, numRuns) := r in
        if bool_decide (numRuns = 0) then Returned []
        else Returned (put_spans (header ++ runs) numRuns)
  end.

(** [GetLegacyRLE]. *)
Definition GetLegacyRLE (mapping : option Mapping) (kv : kvstore) (lbl : Z)
    (bounds : Bounds) (old : bool) : outcome (list byte) :=
  let! r := GetMappedLabelMeta mapping kv lbl bounds in
  let '(meta, lbls) := r in
  if old then getLegacySlowRLEs kv meta lbls bounds
  else getLegacyRLEs kv meta lbls bounds.

(** [GetSparseCoarseVol]. *)
Definition GetSparseCoarseVol (mapping : option Mapping) (kv : kvstore) (lbl : Z)
    (bounds : Bounds) : outcome (list byte) :=
  let merged :=
    match mapping with
    | Some mp => (FinalLabel mp lbl).2
    | None => false
    end in
  if merged then Returned []
  else
    let lbls :=
      match mapping with
      | None => [lbl]
      | Some mp => ConstituentLabels mp lbl
      end in
    let! meta := GetLabelMeta kv lbls bounds in
    let! r := coarse_rles (Blocks meta) in
    let '(runs, spans) := r in
    Returned (put_spans (header ++ runs) spans).

(** [WriteStreamingRLE] up to its test of the Meta: the sibling of
    [GetLegacyRLE] that asks [meta == nil] before it reads [meta.Blocks].
    The result tells whether the label was found. *)
Definition WriteStreamingRLE_found (mapping : option Mapping) (kv : kvstore)
    (lbl : Z) (bounds : Bounds) : outcome bool :=
  let! r := GetMappedLabelMeta mapping kv lbl bounds in
  match r with
  | (None, _) => Returned false
  | (Some m, lbls) =>
      if bool_decide (length (Blocks m) = 0%nat) || bool_decide (length (default [] lbls) = 0%nat)
      then Returned false
      else
        let! indices := clip_blocks (within_xy bounds) (Blocks m) in
        Returned (negb (bool_decide (length indices = 0%nat)))
  end.

(** [labels.Mapping.Get], of package labels, as [FoundSparseVol] uses
    it: whether the label is mapped to another one. *)
Variable Mapping_Get : Mapping -> Z -> Z * bool.

(** The test of one constituent's blocks against the block bounds in
    [FoundSparseVol]: [izyx.ToChunkPoint3d()] and the [Outside] tests. *)
Fixpoint any_within (within : IZYXString -> outcome bool) (blocks : list IZYXString)
  : outcome bool :=
  match blocks with
  | [] => Returned false
  | izyx :: rest =>
      let! inside := within izyx in
      if inside then Returned true else any_within within rest
  end.

(** The value as the store holds it, for a label that has a record: the
    record inside the envelope of [dvid.SerializeData].  [FoundSparseVol]
    reads the value with [store.Get] and, unlike [GetLabelMeta], does not
    take the envelope off with [dvid.DeserializeData]. *)
Variable SerializeData : list byte -> list byte.

(** The loop of [FoundSparseVol] over the constituent labels.  The value
    read is empty for a label without a record; with block bounds the Meta
    is unmarshalled from the value as stored. *)
Fixpoint FoundSparseVol_loop (kv : kvstore) (bounds : Bounds) (constituents : list Z)
  : outcome bool :=
  match constituents with
  | [] => Returned false
  | lbl :: rest =>
      let val := store_Get kv lbl in
      if bool_decide (length val = 0%nat) then FoundSparseVol_loop kv bounds rest
      else
        match bounds with
        | None => Returned true
        | Some _ =>
            let! meta := UnmarshalBinary (SerializeData val) in
            let! hit := any_within (within_xyz bounds) (Blocks meta) in
            if hit then Returned true else FoundSparseVol_loop kv bounds rest
        end
  end.

(** [FoundSparseVol]. *)
Definition FoundSparseVol (mapping : option Mapping) (kv : kvstore) (lbl : Z)
    (bounds : Bounds) : outcome bool :=
  match mapping with
  | None => FoundSparseVol_loop kv bounds [lbl]
  | Some mp =>
      if (Mapping_Get mp lbl).2 then Returned false
      else FoundSparseVol_loop kv bounds (ConstituentLabels mp lbl)
  end.

(** [SparseVolFormat]: [FormatLegacySlowRLE], or any other format. *)
Inductive SparseVolFormat : Type := FormatLegacySlowRLE | FormatOther.

(** What [WriteLegacyRLE] leaves: its named results [found] and [err],
    and the bytes written to [w]. *)
Record written : Type := mkWritten {
  wr_found : bool;
  wr_err : option string;
  wr_out : list byte;
}.

(** The compressors outside this package: [lz4.Compress] into a buffer of
    [lz4.CompressBound] bytes cut to the output size, and a [gzip.Writer]
    written and closed. *)
Variable lz4_Compress : list byte -> string + list byte.
Variable gzip_Write : list byte -> string + list byte.

(** [WriteLegacyRLE]; [out] is what was written to [w] before, and a
    write appends to it. *)
Definition WriteLegacyRLE (mapping : option Mapping) (kv : kvstore) (lbl : Z)
    (b : Bounds) (compression : string) (format : SparseVolFormat)
    (out : list byte) : outcome written :=
  let old := match format with FormatLegacySlowRLE => true | FormatOther => false end in
  match GetLegacyRLE mapping kv lbl b old with
  | Panicked => Panicked
  | Failed err => Returned (mkWritten false (Some err) out)
  | Returned data =>
      if bool_decide (length data = 0%nat) then Returned (mkWritten false None out)
      else if bool_decide (compression = "") then
        Returned (mkWritten true None (out ++ data))
      else if bool_decide (compression = "lz4") then
        match lz4_Compress data with
        | inl err => Returned (mkWritten true (Some err) out)
        | inr compressed => Returned (mkWritten true None (out ++ compressed))
        end
      else if bool_decide (compression = "gzip") then
        match gzip_Write data with
        | inl err => Returned (mkWritten true (Some err) out)
        | inr compressed => Returned (mkWritten true None (out ++ compressed))
        end
      else Returned (mkWritten true (Some "unknown compression type") out)
  end.

End Retrieval.

(** The mapping after label 5 was merged into label 7. *)
Definition merged_5_into_7 : Mapping :=
  mkMapping (fun l => if bool_decide (l = 5) then (7, true) else (l, false))
            (fun l => if bool_decide (l = 7) then [7; 5] else [l]).

End SparseVol.

(** * PutVoxels: the entry point of a PUT *)

Module Put.
Import LabelIndex.

(** What [putChunk] hands over for a block it has stored: an
    [imageblk.MutatedBlock] (index, previous data, data, mutation id) or an
    [imageblk.Block] (index, data, mutation id).  The block goes to the
    index handler of the package, with the index channel of the PUT, and
    then to [datastore.NotifySubscribers]. *)
Inductive block_event : Type :=
| MutatedBlock (index : IZYXString) (prev data : list byte) (mutID : Z)
| Block (index : IZYXString) (data : list byte) (mutID : Z).

Definition ev_index (e : block_event) : IZYXString :=
  match e with MutatedBlock index _ _ _ => index | Block index _ _ => index end.

Definition ev_data (e : block_event) : list byte :=
  match e with MutatedBlock _ _ data _ => data | Block _ data _ => data end.

Definition ev_mutID (e : block_event) : Z :=
  match e with MutatedBlock _ _ _ mutID => mutID | Block _ _ mutID => mutID end.

(** What a PUT can change. *)
Record state (Extents : Type) : Type := mkState {
  st_extents : Extents;                      (* d.Extents() *)
  st_dirty : bool;                           (* repo saved on extent change *)
  st_mutID : Z;                              (* d.NewMutationID() counter *)
  st_blocks : gmap IZYXString (list byte);   (* block key-values *)
  st_sent : list block_event;                (* blocks handed over *)
  st_commits : list Z;                       (* publishDownresCommit *)
}.
Arguments mkState {Extents}.
Arguments st_extents {Extents}.
Arguments st_dirty {Extents}.
Arguments st_mutID {Extents}.
Arguments st_blocks {Extents}.
Arguments st_sent {Extents}.
Arguments st_commits {Extents}.

Section PutVoxels.

(** Outside this package: the submitted [imageblk.Voxels] and its
    geometry, the ROI lookup, [dvid.BlockAligned(vox, d.BlockSize())], the
    index iterator (for each span what [IndexSpan] returns: its error, or
    the span, given as the block indices of its loop over X), the extents
    with [AdjustPoints] and [AdjustIndices], and the block codec:
    [WriteBlock] on the background block (it writes into the buffer it
    is given, so that [block.V] and [blockData] are the same bytes),
    [labels.Compress] followed by [dvid.SerializeData], and the decoding of
    the value stored before ([getLabelBlock] past its [store.Get]).  The
    store, the request buffer and the subscribers are taken not to fail,
    and the chunk tasks are taken one after the other. *)
Variables Voxels ROI Extents : Type.
Variable GetROI : Z -> string -> Voxels -> string + option ROI.
Variable BlockAligned : Voxels -> bool.
Variable index_spans : Voxels -> list (string + list IZYXString).
Variable InsideFast : ROI -> IZYXString -> bool.
Variable AdjustPoints : Extents -> Voxels -> Extents * bool.
Variable AdjustIndices : Extents -> list IZYXString -> Extents * bool.
Variable WriteBlock : Voxels -> IZYXString -> string + list byte.
Variable encode : list byte -> string + list byte.
Variable getLabelBlock : option (list byte) -> string + list byte.

(** [putChunk] for one block index, with a nil [chunk.V]: a failing step
    is logged and the chunk is dropped; otherwise the block is stored and
    then handed over. *)
Definition putChunk (vox : Voxels) (mutate : bool) (st : state Extents)
    (izyx : IZYXString) : state Extents :=
  let old :=
    if mutate then getLabelBlock (st_blocks st !! izyx) else inr [] in
  match old with
  | inl _ => st
  | inr oldBlock =>
      match WriteBlock vox izyx with
      | inl _ => st
      | inr blockData =>
          match encode blockData with
          | inl _ => st
          | inr serialization =>
              let event :=
                if mutate then MutatedBlock izyx oldBlock blockData (st_mutID st)
                else Block izyx blockData (st_mutID st) in
              mkState (st_extents st) (st_dirty st) (st_mutID st)
                      (<[izyx := serialization]> (st_blocks st))
                      (st_sent st ++ [event]) (st_commits st)
          end
      end
  end.

(** [r != nil && r.Iter != nil && !r.Iter.InsideFast(curIndex)] skips the
    block. *)
Definition inside (r : option ROI) (izyx : IZYXString) : bool :=
  match r with
  | Some roi => InsideFast roi izyx
  | None => true
  end.

Definition set_extents (st : state Extents) (extents : Extents) : state Extents :=
  mkState extents (st_dirty st) (st_mutID st) (st_blocks st) (st_sent st)
          (st_commits st).

(** The loop over the spans of the index iterator, the chunks taken one
    after the other: the state, [extentChanged], and the error of
    [IndexSpan] that ended the loop, if any. *)
Fixpoint put_spans (r : option ROI) (vox : Voxels) (mutate : bool)
    (spans : list (string + list IZYXString)) (st : state Extents)
    (extentChanged : bool) : state Extents * bool * option string :=
  match spans with
  | [] => (st, extentChanged, None)
  | inl err :: _ => (st, extentChanged, Some err)
  | inr span :: rest =>
      let '(extents, changed) := AdjustIndices (st_extents st) span in
      let st :=
        foldl (putChunk vox mutate) (set_extents st extents)
              (filter (fun izyx => Is_true (inside r izyx)) span) in
      put_spans r vox mutate rest st (extentChanged || changed)
  end.

(** [PutVoxels]: the state it leaves and the error it returns.  The
    deferred function saves the repo when the extents changed, on every
    return that follows the two checks. *)
Definition PutVoxels (v : Z) (vox : Voxels) (roiname : string) (mutate : bool)
    (st : state Extents) : state Extents * outcome unit :=
  match GetROI v roiname vox with
  | inl err => (st, Failed err)
  | inr r =>
      if negb (BlockAligned vox) then
        (st, Failed "cannot store voxels in non-block aligned geometry")
      else
        let '(extents, extentChanged) := AdjustPoints (st_extents st) vox in
        let mutID := st_mutID st + 1 in
        let st0 := mkState extents (st_dirty st) mutID (st_blocks st)
                           (st_sent st) (st_commits st) in
        let '(st1, extentChanged, err) :=
          put_spans r vox mutate (index_spans vox) st0 extentChanged in
        let dirty := st_dirty st1 || extentChanged in
        match err with
        | Some err =>
            (mkState (st_extents st1) dirty mutID (st_blocks st1) (st_sent st1)
                     (st_commits st1),
             Failed err)
        | None =>
            (mkState (st_extents st1) dirty mutID (st_blocks st1) (st_sent st1)
                     (st_commits st1 ++ [mutID]),
             Returned ())
        end
  end.

(** The block indices the loop hands to [putChunk]: those of the spans
    before the first error of [IndexSpan] that the ROI, if there is one,
    holds. *)
Fixpoint span_ids (r : option ROI) (spans : list (string + list IZYXString))
  : list IZYXString :=
  match spans with
  | [] => []
  | inl _ :: _ => []
  | inr span :: rest =>
      filter (fun izyx => Is_true (inside r izyx)) span ++ span_ids r rest
  end.

(** The blocks a PUT is aimed at. *)
Definition targeted (r : option ROI) (vox : Voxels) (izyx : IZYXString) : Prop :=
  izyx ∈ span_ids r (index_spans vox).

(** The block handed over was made by [WriteBlock] and is in the store
    in its encoded form. *)
Definition stored (vox : Voxels) (st : state Extents) (e : block_event) : Prop :=
  exists serialization,
    WriteBlock vox (ev_index e) = inr (ev_data e)
    /\ encode (ev_data e) = inr serialization
    /\ st_blocks st !! ev_index e = Some serialization.

(** What the chunk tasks of a PUT keep, from the state [st0], once the
    blocks [ids] have been dealt with. *)
Definition chunks_inv (vox : Voxels) (mutate : bool) (ids : list IZYXString)
    (st0 st : state Extents) : Prop :=
  exists new,
    st_sent st = st_sent st0 ++ new
    /\ st_mutID st = st_mutID st0 /\ st_commits st = st_commits st0
    /\ st_dirty st = st_dirty st0
    /\ (forall izyx, izyx ∉ ids -> st_blocks st !! izyx = st_blocks st0 !! izyx)
    /\ (forall e, e ∈ new ->
          ev_index e ∈ ids /\ ev_mutID e = st_mutID st0 /\ stored vox st e)
    /\ (mutate = false ->
        forall izyx data serialization,
          izyx ∈ ids -> WriteBlock vox izyx = inr data ->
          encode data = inr serialization ->
          st_blocks st !! izyx = Some serialization
          /\ Block izyx data (st_mutID st0) ∈ new).

End PutVoxels.
End Put.

(** * PutBlocks: blocks streamed in a span along X *)

Module PutBlocks.

(** [dvid.ChunkPoint3d]: the block coordinate, x first; the block key
    [NewBlockTKey] is taken as the coordinate itself. *)
Definition ChunkPoint3d : Type := Z * Z * Z.

(** The sync events [datastore.NotifySubscribers] delivers, with the block
    bytes as they are at delivery. *)
Inductive block_event : Type :=
| IngestBlockEvent (pt : ChunkPoint3d) (data : list byte) (mutID : Z)
| MutateBlockEvent (pt : ChunkPoint3d) (prev data : list byte) (mutID : Z).

(** The store, the batch being filled, and the events delivered. *)
Record blocks_state : Type := mkBlocks {
  pb_store : gmap ChunkPoint3d (list byte);
  pb_batch : list (ChunkPoint3d * list byte);
  pb_events : list block_event;
}.

(** [batch.Commit()]: the puts of the batch reach the store, in order. *)
Definition write_batch (store : gmap ChunkPoint3d (list byte))
    (batch : list (ChunkPoint3d * list byte)) : gmap ChunkPoint3d (list byte) :=
  foldl (fun s kv => <[kv.1 := kv.2]> s) store batch.

Definition Commit (st : blocks_state) : blocks_state :=
  mkBlocks (write_batch (pb_store st) (pb_batch st)) [] (pb_events st).

(** const BatchSize = 1000 *)
Definition BatchSize : Z := 1000.

(** The inner loop that reads a block's worth of data, on a stream that
    hands out the bytes it has ([data] is what is left of it): the block and
    the rest of the stream, or nothing when the stream ends before the
    block is full. *)
Definition read_block (numBlockBytes : Z) (data : list byte)
  : option (list byte * list byte) :=
  if bool_decide (numBlockBytes <= Z.of_nat (length data)) then
    Some (take (Z.to_nat numBlockBytes) data, drop (Z.to_nat numBlockBytes) data)
  else None.

Definition err_ceased : string := "Block data ceased before all block data read".

Section PutBlocks.

(** [d.BlockSize().Prod()], [dvid.SerializeData] with the compression and
    checksum of the instance, and the decoding of the block stored before
    ([getLabelBlock] past its [store.Get]). *)
Variable numBlockBytes : Z.
Variable SerializeData : list byte -> outcome (list byte).
Variable decodeLabelBlock : option (list byte) -> outcome (list byte).

(** [chunkPt[0]++] on an int32. *)
Definition next_chunk (pt : ChunkPoint3d) : ChunkPoint3d :=
  let '(x, y, z) := pt in (wrap_i32 (x + 1), y, z).

(** The outer loop of [PutBlocks]; [None] when [fuel] passes of the loop
    did not end it. *)
Fixpoint PutBlocks_loop (fuel : nat) (mutID : Z) (chunkPt : ChunkPoint3d)
    (readBlocks span : Z) (data : list byte) (mutate : bool) (st : blocks_state)
  : option (blocks_state * outcome unit) :=
  match fuel with
  | O => None
  | S fuel' =>
      match read_block numBlockBytes data with
      | None => Some (st, Failed err_ceased)
      | Some (buf, rest) =>
          match SerializeData buf with
          | Panicked => Some (st, Panicked)
          | Failed err => Some (st, Failed err)
          | Returned serialization =>
              let old :=
                if mutate then decodeLabelBlock (pb_store st !! chunkPt)
                else Returned [] in
              match old with
              | Panicked => Some (st, Panicked)
              | Failed err =>
                  Some (st, Failed ("Unable to load previous block: " ++ err))
              | Returned oldBlock =>
                  let event :=
                    if mutate then MutateBlockEvent chunkPt oldBlock buf mutID
                    else IngestBlockEvent chunkPt buf mutID in
                  let st := mkBlocks (pb_store st)
                                     (pb_batch st ++ [(chunkPt, serialization)])
                                     (pb_events st ++ [event]) in
                  let chunkPt := next_chunk chunkPt in
                  let readBlocks := readBlocks + 1 in
                  let finish := bool_decide (readBlocks = span) in
                  let st :=
                    if finish || bool_decide (readBlocks mod BatchSize = 0)
                    then Commit st else st in
                  if finish then Some (st, Returned ())
                  else PutBlocks_loop fuel' mutID chunkPt readBlocks span rest mutate st
              end
          end
      end
  end.

(** [PutBlocks]: [make([]byte, numBlockBytes)] panics on a negative
    size; the loop is given more passes than it can make on a stream of
    non-empty blocks. *)
Definition PutBlocks (mutID : Z) (start : ChunkPoint3d) (span : Z)
    (data : list byte) (mutate : bool) (store : gmap ChunkPoint3d (list byte))
  : option (blocks_state * outcome unit) :=
  if bool_decide (numBlockBytes < 0) then Some (mkBlocks store [] [], Panicked)
  else PutBlocks_loop (S (length data) + Z.to_nat span) mutID start 0 span data mutate
                      (mkBlocks store [] []).

(** The puts of the first [k] blocks of the stream, as the loop makes
    them, for a serialization [ser]. *)
Fixpoint block_puts (ser : list byte -> list byte) (k : nat) (pt : ChunkPoint3d)
    (data : list byte) : list (ChunkPoint3d * list byte) :=
  match k with
  | O => []
  | S k' =>
      (pt, ser (take (Z.to_nat numBlockBytes) data))
        :: block_puts ser k' (next_chunk pt) (drop (Z.to_nat numBlockBytes) data)
  end.

(** The ingest events of the first [k] blocks of the stream. *)
Fixpoint ingest_events (mutID : Z) (k : nat) (pt : ChunkPoint3d)
    (data : list byte) : list block_event :=
  match k with
  | O => []
  | S k' =>
      IngestBlockEvent pt (take (Z.to_nat numBlockBytes) data) mutID
        :: ingest_events mutID k' (next_chunk pt) (drop (Z.to_nat numBlockBytes) data)
  end.

End PutBlocks.
End PutBlocks.

(** * Run-length encoding of a label block *)

Module RLE.
Import LabelIndex.

(** [dvid.Point3d] and [dvid.IndexZYX]: three int32, x first. *)
Record Point3d : Type := mkPoint { px : Z; py : Z; pz : Z }.

(** [dvid.RLE], as [writeRLE] appends it to the buffer: the start of the
    run and its length (16 bytes on the wire). *)
Record Run : Type := mkRun { run_start : Point3d; run_length : Z }.

(** [for i = first; i <= last; i++ { body }] on int32 counters, for
    [last] below the largest int32 (so that [i++] does not wrap); the body
    may panic. *)
Fixpoint for_loop {St : Type} (n : nat) (i : Z) (body : St -> Z -> outcome St) (s : St)
  : outcome St :=
  match n with
  | O => Returned s
  | S n' => let! s' := body s i in for_loop n' (i + 1) body s'
  end.

Definition for_range {St : Type} (first last : Z) (body : St -> Z -> outcome St) (s : St)
  : outcome St :=
  for_loop (Z.to_nat (last - first + 1)) first body s.

(** The variables of the scan: the offset [start] into the data, the open
    run [spanRun] and its [spanStart], the count [newRuns] and the runs
    written to [buf]. *)
Record scan : Type := mkScan {
  start : Z;
  spanRun : Z;
  spanStart : Point3d;
  newRuns : Z;
  buf : list Run;
}.

Definition scan_zero : scan := mkScan 0 0 (mkPoint 0 0 0) 0 [].

(** [start += n]. *)
Definition skip (n : Z) (st : scan) : scan :=
  mkScan (start st + n) (spanRun st) (spanStart st) (newRuns st) (buf st).

(** [if spanRun > 0 { newRuns++; writeRLE(buf, spanStart, spanRun) };
    spanRun = 0]: the end of a run, in the x scan and after it. *)
Definition close_run (st : scan) : scan :=
  if bool_decide (0 < spanRun st) then
    mkScan (start st) 0 (spanStart st) (wrap_u32 (newRuns st + 1))
           (buf st ++ [mkRun (spanStart st) (spanRun st)])
  else mkScan (start st) 0 (spanStart st) (newRuns st) (buf st).

(** [spanRun++; if spanRun == 1 { spanStart = dvid.Point3d{x, y, z} }]. *)
Definition extend_run (x y z : Z) (st : scan) : scan :=
  let run := wrap_i32 (spanRun st + 1) in
  mkScan (start st) run
         (if bool_decide (run = 1) then mkPoint x y z else spanStart st)
         (newRuns st) (buf st).

(** No voxel bounds: [Outside] of an unset bound is false everywhere. *)
Definition nowhere (_ : Z) : bool := false.

Section Scan.

(** [d.BlockSize()], the decoder [izyx.IndexZYX()] of package dvid, and
    the requested label set. *)
Variable BlockSize : Point3d.
Variable IndexZYX : IZYXString -> outcome Point3d.
Variable lbls : gset Z.

(** [d.BlockSize().Prod()], an int64. *)
Definition Prod : Z := wrap_i64 (px BlockSize * py BlockSize * pz BlockSize).

(** Modelled from the spec: [IndexZYX.MinPoint] and [IndexZYX.MaxPoint],
    of package dvid; a block is the fixed-size cuboid of voxels addressed by
    its index, from [index * size] to [(index + 1) * size - 1] on every
    axis, in int32 arithmetic. *)
Definition MinPoint (idx : Point3d) : Point3d :=
  mkPoint (wrap_i32 (px idx * px BlockSize))
          (wrap_i32 (py idx * py BlockSize))
          (wrap_i32 (pz idx * pz BlockSize)).

Definition MaxPoint (idx : Point3d) : Point3d :=
  mkPoint (wrap_i32 (wrap_i32 ((px idx + 1) * px BlockSize) - 1))
          (wrap_i32 (wrap_i32 ((py idx + 1) * py BlockSize) - 1))
          (wrap_i32 (wrap_i32 ((pz idx + 1) * pz BlockSize) - 1)).

(** [label = binary.LittleEndian.Uint64(data[start : start+8]);
    start += 8]. *)
Definition read_label (data : list byte) (st : scan) : outcome (Z * scan) :=
  let! bytes := go_slice data (start st) (start st + 8) in
  Returned (le_decode bytes, skip 8 st).

(** The body of the x loop of [addRLEs]. *)
Definition voxel (data : list byte) (y z : Z) (st : scan) (x : Z) : outcome scan :=
  let! r := read_label data st in
  let '(label, st) := r in
  let inSpan :=
    if bool_decide (label ≠ 0) then bool_decide (label ∈ lbls) else false in
  if inSpan then Returned (extend_run x y z st)
  else Returned (close_run st).

Definition err_size : string :=
  "Deserialized label block bytes, not uint64 size times block elements".

(** [addRLEs]: the runs written to the buffer and [newRuns]. *)
Definition addRLEs (izyx : IZYXString) (data : list byte) : outcome (list Run * Z) :=
  if bool_decide (Z.of_nat (length data) ≠ wrap_i64 (Prod * 8)) then Failed err_size
  else
    let! indexZYX := IndexZYX izyx in
    let firstPt := MinPoint indexZYX in
    let lastPt := MaxPoint indexZYX in
    let! st :=
      for_range (pz firstPt) (pz lastPt) (fun st z =>
        for_range (py firstPt) (py lastPt) (fun st y =>
          let! st := for_range (px firstPt) (px lastPt) (voxel data y z) st in
          (* Force break of any runs when we finish x scan. *)
          Returned (close_run st)) st) scan_zero in
    Returned (buf st, newRuns st).

(** [bounds.OutsideX], [bounds.OutsideY], [bounds.OutsideZ] of the voxel
    bounds, of package dvid. *)
Variable OutsideX OutsideY OutsideZ : Z -> bool.

(** The body of the x loop of [addBoundedRLEs]. *)
Definition bounded_voxel (data : list byte) (y z : Z) (st : scan) (x : Z)
  : outcome scan :=
  let! r := read_label data st in
  let '(label, st) := r in
  let inSpan :=
    if bool_decide (label ≠ 0) then
      let inSpan := bool_decide (label ∈ lbls) in
      if inSpan && OutsideX x then false else inSpan
    else false in
  if inSpan then Returned (extend_run x y z st)
  else Returned (close_run st).

(** [addBoundedRLEs]. *)
Definition addBoundedRLEs (izyx : IZYXString) (data : list byte)
  : outcome (list Run * Z) :=
  if bool_decide (Z.of_nat (length data) ≠ wrap_i64 (Prod * 8)) then Failed err_size
  else
    let! indexZYX := IndexZYX izyx in
    let firstPt := MinPoint indexZYX in
    let lastPt := MaxPoint indexZYX in
    let yskip := wrap_i32 (px BlockSize * 8) in
    let zskip := wrap_i64 (py BlockSize * yskip) in
    let! st :=
      for_range (pz firstPt) (pz lastPt) (fun st z =>
        if OutsideZ z then Returned (skip zskip st)
        else
          for_range (py firstPt) (py lastPt) (fun st y =>
            if OutsideY y then Returned (skip yskip st)
            else
              let! st := for_range (px firstPt) (px lastPt) (bounded_voxel data y z) st in
              Returned (close_run st)) st) scan_zero in
    Returned (buf st, newRuns st).

(** The label of the voxel [(x, y, z)] of the block that starts at
    [firstPt], in the x-fastest layout of [data]. *)
Definition voxel_offset (firstPt : Point3d) (x y z : Z) : Z :=
  8 * (((z - pz firstPt) * py BlockSize + (y - py firstPt)) * px BlockSize
       + (x - px firstPt)).

Definition voxel_label (data : list byte) (firstPt : Point3d) (x y z : Z) : Z :=
  le_decode (take 8 (drop (Z.to_nat (voxel_offset firstPt x y z)) data)).

(** A run of the block of index [idx]: it lies in one row of the block,
    and each of its voxels has a non-zero label of the requested set (and
    is within the voxel bounds). *)
Definition run_in_row (data : list byte) (idx : Point3d) (r : Run) : Prop :=
  let firstPt := MinPoint idx in
  let lastPt := MaxPoint idx in
  let '(mkPoint x y z) := run_start r in
  1 <= run_length r <= px BlockSize
  /\ px firstPt <= x /\ x + run_length r - 1 <= px lastPt
  /\ py firstPt <= y <= py lastPt
  /\ pz firstPt <= z <= pz lastPt
  /\ forall k, 0 <= k < run_length r ->
       voxel_label data firstPt (x + k) y z ≠ 0
       /\ voxel_label data firstPt (x + k) y z ∈ lbls
       /\ OutsideX (x + k) = false /\ OutsideY y = false /\ OutsideZ z = false.

(** The blocks the scanners are meant for: a positive block size, a
    block whose voxel coordinates are int32 (the largest one excluded), and
    eight bytes of data per voxel. *)
Definition block_ok (idx : Point3d) (data : list byte) : Prop :=
  0 < px BlockSize /\ 0 < py BlockSize /\ 0 < pz BlockSize
  /\ px BlockSize * py BlockSize * pz BlockSize * 8 < 2 ^ 31
  /\ - 2 ^ 31 <= px idx * px BlockSize /\ (px idx + 1) * px BlockSize < 2 ^ 31
  /\ - 2 ^ 31 <= py idx * py BlockSize /\ (py idx + 1) * py BlockSize < 2 ^ 31
  /\ - 2 ^ 31 <= pz idx * pz BlockSize /\ (pz idx + 1) * pz BlockSize < 2 ^ 31
  /\ Z.of_nat (length data) = px BlockSize * py BlockSize * pz BlockSize * 8.

(** Whether the voxel [(x, y, z)] is asked for: a non-zero label of the
    requested set, within the voxel bounds. *)
Definition requested (data : list byte) (firstPt : Point3d) (x y z : Z) : bool :=
  let label := voxel_label data firstPt x y z in
  bool_decide (label ≠ 0) && bool_decide (label ∈ lbls)
  && negb (OutsideX x) && negb (OutsideY y) && negb (OutsideZ z).

(** The sum of [f] over the [n] integers from [i] on. *)
Fixpoint sum_from (f : Z -> Z) (n : nat) (i : Z) : Z :=
  match n with
  | O => 0
  | S n' => f i + sum_from f n' (i + 1)
  end.

(** The number of requested voxels of the block of index [idx]. *)
Definition requested_voxels (data : list byte) (idx : Point3d) : Z :=
  let firstPt := MinPoint idx in
  sum_from (fun z =>
    sum_from (fun y =>
      sum_from (fun x => if requested data firstPt x y z then 1 else 0)
               (Z.to_nat (px BlockSize)) (px firstPt))
             (Z.to_nat (py BlockSize)) (py firstPt))
           (Z.to_nat (pz BlockSize)) (pz firstPt).

(** The number of voxels the runs cover. *)
Definition total_length (runs : list Run) : Z :=
  foldr (fun r s => run_length r + s) 0 runs.

End Scan.
End RLE.

(** * A one-dimensional instance of the PUT entry point

    Blocks of two voxels along x; the submitted geometry is a start and a
    length; every block written holds label 7 twice. *)

Module PutExample.
Import LabelIndex Put.

Definition Voxels : Type := Z * Z.

Definition BlockAligned (vox : Voxels) : bool :=
  (vox.1 mod 2 =? 0) && (vox.2 mod 2 =? 0).

Definition index_spans (vox : Voxels) : list (string + list IZYXString) :=
  [inr ((fun k => be32 0 ++ be32 0 ++ be32 (vox.1 / 2 + k)) <$> seqZ 0 (vox.2 / 2))].

Definition PutVoxels : Z -> Voxels -> string -> bool -> state unit -> state unit * outcome unit :=
  Put.PutVoxels Voxels unit unit
    (fun _ _ _ => inr None) BlockAligned index_spans (fun _ _ => true)
    (fun e _ => (e, false)) (fun e _ => (e, false))
    (fun _ _ => inr (le64 7 ++ le64 7))
    (fun b => inr b)
    (fun _ => inr []).

(** A fresh instance. *)
Definition fresh : state unit := mkState () false 0 ∅ [] [].

End PutExample.

(** * Concrete inputs used by the examples *)

Module Fixtures.
Import LabelIndex Pipeline.

(** A cache of size 2 that holds label 1, last accessed at time 10, and
    label 2, last accessed at time 20. *)
Definition full_cache : Cache.MetaCache * Cache.heap :=
  (Cache.mkCache 2 2,
   Cache.mkHeap {[ 0%nat := Cache.mkTimed 1 (mkMeta 11 []) 10;
                   1%nat := Cache.mkTimed 2 (mkMeta 22 []) 20 ]}
                2%nat
                {[ 1 := 0%nat; 2 := 1%nat ]}
                [Some 0%nat; Some 1%nat]).

(** A block coordinate, and a label index holding label 1 with 10 voxels
    in that block. *)
Definition block0 : IZYXString := [0;0;0;0; 0;0;0;0; 0;0;0;1].

Definition kv10 : kvstore := {[ 1 := MarshalBinary (mkMeta 10 [block0]) ]}.

(** A worker whose label index holds label 1 with the single block
    [block0], and the label change that takes label 1 out of that block. *)
Definition worker10 : worker := worker_start 0 kv10.

Definition leave_block0 : labelChange :=
  mkLabelChange 0 1 {[ block0 := mkDiff 0 false ]}.

(** A block of 2 x 2 x 1 voxels at the origin, all of label 7 but the
    last (label 0): the first row gives one run of length 2 and the second
    row a run of length 1; the run does not go on from the end of the first
    row into the second. *)
Definition block_2x2 : list byte := le64 7 ++ le64 7 ++ le64 7 ++ le64 0.

Definition origin_index (_ : IZYXString) : outcome RLE.Point3d :=
  Returned (RLE.mkPoint 0 0 0).

End Fixtures.

(** * Properties of storage/context.go *)

Section StorageProps.
Import Storage.

Lemma go_slice_middle (a b c : list byte) :
  go_slice (a ++ b ++ c) (Z.of_nat (length a))
           (Z.of_nat (length (a ++ b ++ c)) - Z.of_nat (length c)) = Returned b.
Proof.
  unfold go_slice. rewrite !length_app.
  rewrite bool_decide_eq_true_2 by lia. f_equal.
  rewrite Nat2Z.id, drop_app_length.
  replace (Z.to_nat _) with (length b) by lia.
  apply take_app_length.
Qed.

(** C5.  For every data context and every index byte string,
    [IndexFromKey (ConstructKey index)] returns exactly [index] and no
    error: the layout [0x01 | InstanceID(4) | index | VersionID(4)]
    round-trips, whatever the index bytes are. *)
Theorem IndexFromKey_ConstructKey (ctx : DataContext) (index : list byte) :
  IndexFromKey ctx (ConstructKey ctx index) = Returned index.
Proof.
  unfold IndexFromKey, ConstructKey.
  set (pre := [dataKeyPrefix] ++ InstanceID_Bytes (instance ctx)).
  set (suf := VersionID_Bytes (version ctx)).
  assert (Hpre : Z.of_nat (length pre) = 1 + InstanceIDSize) by reflexivity.
  assert (Hsuf : Z.of_nat (length suf) = VersionIDSize) by reflexivity.
  replace (go_index ((pre ++ index) ++ suf) 0) with (Returned dataKeyPrefix).
  2:{ unfold go_index. rewrite bool_decide_eq_true_2; [reflexivity|].
      rewrite !length_app. unfold InstanceIDSize in Hpre. lia. }
  cbn [obind]. rewrite bool_decide_eq_false_2 by tauto.
  rewrite <- Hpre, <- Hsuf, <- app_assoc. apply go_slice_middle.
Qed.

(** The metadata codec reads [key[0]] and slices [key[1:]]: it panics on
    the empty key and on no other. *)
Lemma Metadata_IndexFromKey_cases (key : list byte) :
  MetadataContext.IndexFromKey key =
  match key with
  | [] => Panicked
  | k0 :: rest =>
      if bool_decide (k0 = metadataKeyPrefix) then Returned rest
      else Failed err_metadata
  end.
Proof.
  destruct key as [|k0 rest]; [reflexivity|].
  unfold MetadataContext.IndexFromKey.
  replace (go_index (k0 :: rest) 0) with (Returned k0).
  2:{ unfold go_index. rewrite bool_decide_eq_true_2; [reflexivity|].
      cbn [length]. lia. }
  cbn [obind]. destruct (decide (k0 = metadataKeyPrefix)) as [->|Hne].
  - rewrite bool_decide_eq_false_2 by tauto.
    rewrite bool_decide_eq_true_2 by reflexivity.
    unfold go_slice. rewrite bool_decide_eq_true_2 by (cbn [length]; lia).
    f_equal. change (Z.to_nat 1) with 1%nat. cbn [drop length].
    replace (Z.to_nat _) with (length rest) by lia. apply firstn_all.
  - rewrite bool_decide_eq_true_2 by assumption.
    rewrite bool_decide_eq_false_2 by assumption. reflexivity.
Qed.

(** The data codec reads [key[0]] first, and slices
    [key[1+InstanceIDSize : len(key)-VersionIDSize]] only for a key that
    carries the data prefix. *)
Lemma Data_IndexFromKey_cases (ctx : DataContext) (key : list byte) :
  IndexFromKey ctx key =
  match key with
  | [] => Panicked
  | k0 :: _ =>
      if bool_decide (k0 = dataKeyPrefix) then
        if bool_decide (1 + InstanceIDSize + VersionIDSize <= Z.of_nat (length key))
        then Returned (take (length key - 9) (drop 5 key))
        else Panicked
      else Failed err_data
  end.
Proof.
  destruct key as [|k0 rest]; [reflexivity|].
  unfold IndexFromKey.
  replace (go_index (k0 :: rest) 0) with (Returned k0).
  2:{ unfold go_index. rewrite bool_decide_eq_true_2; [reflexivity|].
      cbn [length]. lia. }
  cbn [obind]. destruct (decide (k0 = dataKeyPrefix)) as [->|Hne].
  - rewrite bool_decide_eq_false_2 by tauto.
    rewrite bool_decide_eq_true_2 by reflexivity.
    unfold go_slice, InstanceIDSize, VersionIDSize.
    destruct (decide (1 + 4 + 4 <= Z.of_nat (length (dataKeyPrefix :: rest)))).
    + rewrite !bool_decide_eq_true_2 by lia. do 2 f_equal. lia.
    + rewrite !bool_decide_eq_false_2 by lia. reflexivity.
  - rewrite bool_decide_eq_true_2 by assumption.
    rewrite bool_decide_eq_false_2 by assumption. reflexivity.
Qed.

(** C9, as stated, fails: a data key shorter than
    [1 + InstanceIDSize + VersionIDSize] need not run out of bounds.  The
    one-byte key [0x00] is answered with the wrong-keyspace error, because
    the prefix test comes before the slicing. *)
Lemma IndexFromKey_short_key_not_always_panic :
  ~ (forall (ctx : DataContext) (key : list byte),
        Z.of_nat (length key) < 1 + InstanceIDSize + VersionIDSize ->
        IndexFromKey ctx key = Panicked).
Proof.
  intros H. specialize (H (NewDataContext 0 0) [metadataKeyPrefix]).
  vm_compute in H. specialize (H eq_refl). discriminate H.
Qed.

(** C9, amended.  Neither [IndexFromKey] checks the key length, and both
    test the prefix byte before they slice.  The metadata codec panics on
    the empty key and on no other: for a key of length at least 1 it returns
    [key[1:]] when the first byte is the metadata prefix and the
    wrong-keyspace error when it is not.  The data codec panics on the empty
    key; on a key with another first byte than the data prefix it returns
    the wrong-keyspace error, whatever the length; on a key with the data
    prefix it returns [key[5 : len(key)-4]] when the key has at least
    [1 + InstanceIDSize + VersionIDSize] bytes and panics when it is
    shorter. *)
Theorem IndexFromKey_key_length (ctx : DataContext) (key : list byte) :
  MetadataContext.IndexFromKey key
  = match key with
    | [] => Panicked
    | k0 :: rest =>
        if bool_decide (k0 = metadataKeyPrefix) then Returned rest
        else Failed err_metadata
    end
  /\ IndexFromKey ctx key
     = match key with
       | [] => Panicked
       | k0 :: _ =>
           if bool_decide (k0 = dataKeyPrefix) then
             if bool_decide (1 + InstanceIDSize + VersionIDSize
                             <= Z.of_nat (length key))
             then Returned (take (length key - 9) (drop 5 key))
             else Panicked
           else Failed err_data
       end.
Proof.
  split.
  - apply Metadata_IndexFromKey_cases.
  - apply Data_IndexFromKey_cases.
Qed.

End StorageProps.

(** * Properties of Meta.applyChanges *)

Section ApplyChangesProps.
Import LabelIndex.

Lemma wrap_u64_i64 (z : Z) : wrap_u64 (wrap_i64 z) = wrap_u64 z.
Proof.
  unfold wrap_u64, wrap_i64.
  rewrite Zminus_mod_idemp_l. f_equal. lia.
Qed.

Lemma wrap_u64_add_l (a b : Z) : wrap_u64 (wrap_u64 a + b) = wrap_u64 (a + b).
Proof. unfold wrap_u64. apply Zplus_mod_idemp_l. Qed.

Lemma wrap_u64_step (v d : Z) :
  wrap_u64 (wrap_i64 (wrap_i64 v + d)) = wrap_u64 (v + d).
Proof.
  rewrite wrap_u64_i64. rewrite <- wrap_u64_add_l, wrap_u64_i64, wrap_u64_add_l.
  reflexivity.
Qed.

Lemma applyChanges_fold_voxels order v p a :
  wrap_u64 (foldl applyChanges_step (v, p, a) order).1.1
  = wrap_u64 (v + sum_deltas order).
Proof.
  revert v p a. induction order as [|[block diff] order IH]; intros v p a.
  - cbn. f_equal. lia.
  - cbn [foldl applyChanges_step sum_deltas foldr snd].
    destruct (present diff); rewrite IH, wrap_u64_step, wrap_u64_add_l;
      f_equal; fold (sum_deltas order); lia.
Qed.

Lemma applyChanges_fold_range order v p a :
  0 <= v < 2 ^ 64 ->
  0 <= (foldl applyChanges_step (v, p, a) order).1.1 < 2 ^ 64.
Proof.
  revert v p a. induction order as [|[block diff] order IH]; intros v p a Hv.
  - exact Hv.
  - cbn [foldl applyChanges_step].
    destruct (present diff); apply IH; unfold wrap_u64; apply Z.mod_pos_bound; lia.
Qed.

Lemma applyChanges_in_Voxels order m :
  0 <= Voxels m < 2 ^ 64 ->
  Voxels (applyChanges_in order m) = (Voxels m + sum_deltas order) mod 2 ^ 64.
Proof.
  intros Hv. unfold applyChanges_in.
  pose proof (applyChanges_fold_voxels order (Voxels m) [] []) as Hs.
  pose proof (applyChanges_fold_range order (Voxels m) [] [] Hv) as Hr.
  destruct (foldl applyChanges_step (Voxels m, [], []) order) as [[v p] a].
  cbn in *. unfold wrap_u64 in Hs. rewrite <- Hs.
  symmetry. apply Z.mod_small. exact Hr.
Qed.

(** C10.  [Meta.applyChanges] updates the voxel count by wrap-around
    64-bit arithmetic: for every Meta (holding a uint64 count) and every
    blockDiffMap the new [Voxels] is (old [Voxels] + sum of the deltas)
    modulo 2^64, in whatever sequence the map is ranged over; so a negative
    sum that exceeds the count wraps to old + sum + 2^64 rather than
    failing or clamping at zero. *)
Theorem applyChanges_Voxels_wrap (m : Meta) (bdm : blockDiffMap)
    (order : list (IZYXString * labelDiff)) :
  0 <= Voxels m < 2 ^ 64 ->
  order ≡ₚ map_to_list bdm ->
  Voxels (applyChanges_in order m) = (Voxels m + sum_deltas (map_to_list bdm)) mod 2 ^ 64
  /\ Voxels (applyChanges bdm m) = Voxels (applyChanges_in order m)
  /\ (- 2 ^ 64 <= Voxels m + sum_deltas (map_to_list bdm) < 0 ->
      Voxels (applyChanges bdm m) = Voxels m + sum_deltas (map_to_list bdm) + 2 ^ 64).
Proof.
  intros Hv Hperm.
  assert (Hsum : sum_deltas order = sum_deltas (map_to_list bdm)).
  { unfold sum_deltas. apply (foldr_permutation (=) (fun e s => delta e.2 + s) 0);
      [intros; lia | exact Hperm]. }
  unfold applyChanges. rewrite !applyChanges_in_Voxels by exact Hv.
  rewrite Hsum. repeat split.
  intros Hneg.
  replace (Voxels m + sum_deltas (map_to_list bdm))
    with ((Voxels m + sum_deltas (map_to_list bdm) + 2 ^ 64) + (-1) * 2 ^ 64) at 1 by lia.
  rewrite Z.mod_add by lia. apply Z.mod_small. lia.
Qed.

(** A label counted with 3 voxels that loses 5 in one block: the count
    becomes 2^64 - 2. *)
Lemma applyChanges_Voxels_wrap_witness :
  Voxels (applyChanges {[ [0;0;0;0;0;0;0;0;0;0;0;1] := mkDiff (-5) false ]}
                       (mkMeta 3 []))
  = 2 ^ 64 - 2.
Proof.
  set (bdm := {[ [0;0;0;0;0;0;0;0;0;0;0;1] := mkDiff (-5) false ]} : blockDiffMap).
  destruct (applyChanges_Voxels_wrap (mkMeta 3 []) bdm (map_to_list bdm))
    as (_ & _ & H).
  - cbn. lia.
  - reflexivity.
  - rewrite H.
    + unfold bdm. rewrite map_to_list_singleton. reflexivity.
    + unfold bdm. rewrite map_to_list_singleton. cbn. lia.
Defined.

End ApplyChangesProps.

(** * Properties of the MetaCache *)

Section CacheProps.
Import LabelIndex Cache Fixtures.

Lemma GetLabelMeta_miss m now lbl h :
  avail h !! lbl = None -> GetLabelMeta m now lbl h = Returned (None, h).
Proof. intros H. unfold GetLabelMeta. rewrite H. reflexivity. Qed.

(** A label that is not in [avail] is not in it after [AddLabelMeta]
    either: no branch of the function assigns [m.avail[label]]. *)
Lemma AddLabelMeta_miss_avail m now lbl mt h h' :
  avail h !! lbl = None ->
  AddLabelMeta m now lbl mt h = Returned h' ->
  avail h' !! lbl = None.
Proof.
  intros Hmiss. unfold AddLabelMeta. rewrite Hmiss.
  case_bool_decide.
  - destruct (stamped _ _); [|discriminate].
    destruct (sort_cacheList _ !! _) as [ev|]; [|discriminate].
    destruct (objs h !! ev) as [tm|]; [|discriminate].
    intros [= <-]. cbn. destruct (decide (label tm = lbl)) as [->|Hne].
    + apply lookup_delete_eq.
    + rewrite lookup_delete_ne by exact Hne. exact Hmiss.
  - intros [= <-]. exact Hmiss.
Qed.

(** The map of a cache made by [MakeMetaCache] stays empty under
    [AddLabelMeta]. *)
Lemma MakeMetaCache_Add sz now lbl mt :
  exists h', AddLabelMeta (MakeMetaCache sz).1 now lbl mt (MakeMetaCache sz).2 = Returned h'
             /\ avail h' = ∅.
Proof.
  unfold MakeMetaCache, AddLabelMeta. cbn [fst snd avail list_len size].
  rewrite lookup_empty.
  rewrite bool_decide_eq_false_2.
  - eexists. split; reflexivity.
  - unfold defaultCacheSize. case_bool_decide; cbn; lia.
Qed.

(** C3 fails on the code.  On a cache made by [MakeMetaCache], whatever
    its size, [AddLabelMeta(l, m)] returns and the [GetLabelMeta(l)] that
    follows finds nothing: it returns nil and leaves the cache as it is,
    since [AddLabelMeta] never enters the new entry in [avail]. *)
Theorem AddLabelMeta_then_GetLabelMeta_nil (sz now now' lbl : Z) (mt : Meta) :
  exists h',
    AddLabelMeta (MakeMetaCache sz).1 now lbl mt (MakeMetaCache sz).2 = Returned h'
    /\ GetLabelMeta (MakeMetaCache sz).1 now' lbl h' = Returned (None, h').
Proof.
  destruct (MakeMetaCache_Add sz now lbl mt) as (h' & Hadd & Hav).
  exists h'. split; [exact Hadd|].
  apply GetLabelMeta_miss. rewrite Hav. apply lookup_empty.
Qed.

#[local] Instance t_le_trans : Transitive t_le.
Proof. intros a b c. unfold t_le. lia. Qed.

#[local] Instance t_le_total : Total t_le.
Proof. intros a b. unfold t_le. lia. Qed.

(** The last element of an ascending list is a greatest one. *)
Lemma sorted_last_greatest (s : list (loc * Z)) (i : nat) (e x : loc * Z) :
  StronglySorted t_le s -> S i = length s -> s !! i = Some e ->
  x ∈ s -> t_le x e.
Proof.
  intros Hs Hlen He Hx.
  assert (Hsplit : s = take i s ++ [e]).
  { rewrite <- (take_drop i s) at 1. f_equal.
    rewrite (drop_S s e i He). rewrite drop_ge by lia. reflexivity. }
  rewrite Hsplit in Hs, Hx.
  apply elem_of_app in Hx as [Hx|Hx].
  - eapply StronglySorted_app_1_elem_of; [exact Hs|exact Hx|]. set_solver.
  - apply list_elem_of_singleton in Hx as ->. unfold t_le. lia.
Qed.

Lemma stamped_elem h l k p tp :
  stamped h l = Some k -> (p, tp) ∈ k ->
  exists tm, objs h !! p = Some tm /\ t tm = tp.
Proof.
  intros Hst Hin. apply mapM_Some_1 in Hst.
  apply list_elem_of_lookup in Hin as [i Hi].
  destruct (Forall2_lookup_r _ _ _ _ _ Hst Hi) as (o & _ & Ho).
  destruct o as [q|]; [|discriminate]. cbn in Ho.
  destruct (objs h !! q) as [tm|] eqn:Hq; [|discriminate].
  cbn in Ho. injection Ho as <- <-. eauto.
Qed.

Lemma AddLabelMeta_full_sorted_last m now lbl mt h l :
  avail h !! lbl = None ->
  Z.of_nat (list_len m) = size m -> 0 < size m < 2 ^ 16 ->
  (list_len m <= length (array h))%nat ->
  stamped h (take (list_len m) (array h)) = Some l ->
  exists h' ev tm,
    AddLabelMeta m now lbl mt h = Returned h'
    /\ (ev, t tm) ∈ l /\ objs h !! ev = Some tm
    /\ avail h' = delete (label tm) (avail h)
    /\ (forall p tp, (p, tp) ∈ l -> tp <= t tm).
Proof.
  intros Hmiss Hfull Hsz Hcap Hst.
  assert (Hlen : length l = list_len m).
  { apply length_mapM in Hst. rewrite <- Hst, length_take. lia. }
  pose proof (StronglySorted_merge_sort t_le l) as Hsorted.
  pose proof (merge_sort_Permutation t_le l) as Hperm.
  set (last := (list_len m - 1)%nat).
  assert (Hlast : Z.to_nat (wrap_u16 (size m - 1)) = last).
  { unfold wrap_u16, last. rewrite <- Hfull. rewrite Z.mod_small; lia. }
  assert (Hslen : length (merge_sort t_le l) = list_len m).
  { rewrite Hperm. exact Hlen. }
  destruct (lookup_lt_is_Some_2 (merge_sort t_le l) last) as [[ev tv] Hev];
    [unfold last; lia|].
  assert (Hin : (ev, tv) ∈ l).
  { rewrite <- Hperm. apply list_elem_of_lookup. eauto. }
  destruct (stamped_elem _ _ _ _ _ Hst Hin) as (tm & Hobj & Ht).
  unfold AddLabelMeta. rewrite Hmiss, bool_decide_eq_true_2 by exact Hfull.
  rewrite Hst, Hlast. unfold sort_cacheList.
  rewrite list_lookup_fmap, Hev. cbn [fmap option_fmap option_map fst].
  rewrite Hobj. eexists _, ev, tm. split; [reflexivity|].
  subst tv. repeat split; [exact Hin|exact Hobj|].
  intros p tp Hp.
  apply (sorted_last_greatest (merge_sort t_le l) last (ev, t tm) (p, tp));
    [exact Hsorted|unfold last; lia|exact Hev|].
  rewrite Hperm. exact Hp.
Qed.

(** What [AddLabelMeta] does on a full cache: it sorts the list in
    ascending order of the time stamps and takes [list[size-1]] out, which
    is an entry with the latest time stamp of all. *)
Lemma AddLabelMeta_full_evicts_latest m now lbl mt h l :
  avail h !! lbl = None ->
  Z.of_nat (list_len m) = size m -> 0 < size m < 2 ^ 16 ->
  (list_len m <= length (array h))%nat ->
  stamped h (take (list_len m) (array h)) = Some l ->
  exists h' ev tm,
    AddLabelMeta m now lbl mt h = Returned h'
    /\ (ev, t tm) ∈ l /\ objs h !! ev = Some tm
    /\ avail h' = delete (label tm) (avail h)
    /\ (forall p tp, (p, tp) ∈ l -> tp <= t tm).
Proof. exact (AddLabelMeta_full_sorted_last m now lbl mt h l). Qed.




End CacheProps.

(** * Properties of the aggregator and of the label worker *)

Section PipelineProps.
Import LabelIndex Pipeline Fixtures.

(** Every [labelDiff] recorded in a [labelDiffMap] has delta 0. *)
Definition zero_deltas (ldm : labelDiffMap) : Prop :=
  forall lbl bdm block d,
    ldm !! lbl = Some bdm -> bdm !! block = Some d -> delta d = 0.

Lemma zero_deltas_empty : zero_deltas ∅.
Proof. intros lbl bdm block d H. rewrite lookup_empty in H. discriminate. Qed.

Lemma zero_deltas_bdm_of (ldm : labelDiffMap) (lbl : Z) :
  zero_deltas ldm ->
  zero_deltas (bdm_of ldm lbl).1
  /\ (forall block d, (bdm_of ldm lbl).2 !! block = Some d -> delta d = 0).
Proof.
  intros Hz. unfold bdm_of. destruct (ldm !! lbl) as [bdm|] eqn:Hl; cbn.
  - split; [exact Hz|]. intros block d. apply (Hz lbl bdm block d Hl).
  - split.
    + intros l b block d Hlook. destruct (decide (lbl = l)) as [->|Hne].
      * rewrite lookup_insert_eq in Hlook. injection Hlook as <-.
        rewrite lookup_empty. discriminate.
      * rewrite lookup_insert_ne in Hlook by exact Hne. eapply Hz; eauto.
    + intros block d. rewrite lookup_empty. discriminate.
Qed.

Lemma zero_deltas_insert (ldm : labelDiffMap) (lbl : Z) (bdm : blockDiffMap)
    (block : IZYXString) (p : bool) :
  zero_deltas ldm ->
  (forall b d, bdm !! b = Some d -> delta d = 0) ->
  zero_deltas (<[lbl := <[block := mkDiff 0 p]> bdm]> ldm).
Proof.
  intros Hz Hb l b' blk d Hlook Hd.
  destruct (decide (lbl = l)) as [->|Hne].
  - rewrite lookup_insert_eq in Hlook. injection Hlook as <-.
    destruct (decide (block = blk)) as [->|Hnb].
    + rewrite lookup_insert_eq in Hd. injection Hd as <-. reflexivity.
    + rewrite lookup_insert_ne in Hd by exact Hnb. eapply Hb; eauto.
  - rewrite lookup_insert_ne in Hlook by exact Hne. eapply Hz; eauto.
Qed.

Lemma zero_deltas_present_step block ldm e :
  zero_deltas ldm -> zero_deltas (present_step block ldm e).
Proof.
  intros Hz. destruct e as [lbl flag]. unfold present_step.
  destruct (zero_deltas_bdm_of ldm lbl Hz) as [H1 H2].
  destruct (bdm_of ldm lbl) as [ldm' bdm]. cbn in H1, H2.
  repeat case_match; auto using zero_deltas_insert.
Qed.

Lemma zero_deltas_delta_step block ldm e :
  zero_deltas ldm -> zero_deltas (delta_step block ldm e).
Proof.
  intros Hz. destruct e as [lbl d]. unfold delta_step.
  destruct (zero_deltas_bdm_of ldm lbl Hz) as [H1 _].
  destruct (bdm_of ldm lbl) as [ldm' bdm]. exact H1.
Qed.

Lemma zero_deltas_foldl {A} (f : labelDiffMap -> A -> labelDiffMap) (l : list A) ldm :
  (forall m a, zero_deltas m -> zero_deltas (f m a)) ->
  zero_deltas ldm -> zero_deltas (foldl f ldm l).
Proof.
  intros Hf. revert ldm. induction l as [|a l IH]; intros ldm Hz; cbn; auto.
Qed.

(** The aggregator keeps no delta: whatever the block changes carry, every
    entry of the map it builds has delta 0. *)
Lemma aggregate_zero_deltas (changes : list blockChange) :
  zero_deltas (aggregate changes).
Proof.
  unfold aggregate. apply zero_deltas_foldl; [|apply zero_deltas_empty].
  intros m change Hm. unfold aggregate_change.
  apply zero_deltas_foldl; [intros; by apply zero_deltas_delta_step|].
  apply zero_deltas_foldl; [intros; by apply zero_deltas_present_step|exact Hm].
Qed.

Lemma sum_deltas_zero (order : list (IZYXString * labelDiff)) :
  (forall e, e ∈ order -> delta e.2 = 0) -> sum_deltas order = 0.
Proof.
  induction order as [|e order IH]; intros H; cbn; [reflexivity|].
  rewrite (H e) by set_solver. unfold sum_deltas in IH. rewrite IH; [reflexivity|].
  intros e' He'. apply H. set_solver.
Qed.

(** Hence the label worker leaves the voxel count of every Meta as it
    was. *)
Lemma aggregate_keeps_Voxels changes lbl bdm m :
  aggregate changes !! lbl = Some bdm ->
  0 <= Voxels m < 2 ^ 64 ->
  Voxels (applyChanges bdm m) = Voxels m.
Proof.
  intros Hl Hv. unfold applyChanges. rewrite applyChanges_in_Voxels by exact Hv.
  rewrite sum_deltas_zero.
  - rewrite Z.add_0_r. apply Z.mod_small. exact Hv.
  - intros [block d] He. apply elem_of_map_to_list in He.
    exact (aggregate_zero_deltas changes lbl bdm block d Hl He).
Qed.


Lemma length_le64 (v : Z) : length (le64 v) = 8%nat.
Proof. reflexivity. Qed.

Lemma length_copy12 (izyx : IZYXString) : length (copy12 izyx) = 12%nat.
Proof.
  unfold copy12. rewrite length_take, length_app, length_replicate. lia.
Qed.

Lemma length_MarshalBinary (m : Meta) :
  length (MarshalBinary m) = (8 + 12 * length (Blocks m))%nat.
Proof.
  unfold MarshalBinary. rewrite length_app, length_le64. f_equal.
  induction (Blocks m) as [|b bs IH]; [reflexivity|].
  cbn [fmap list_fmap concat]. rewrite length_app, length_copy12.
  cbn [fmap] in IH. rewrite IH. cbn [length]. lia.
Qed.

(** C4, as stated, fails: the label change [leave_block0] leaves the Meta
    of label 1 with no block, and the worker writes that Meta back; the
    record of label 1 is still in the store, eight bytes long, and reads as
    a Meta with an empty [Blocks]. *)
Lemma indexLabels_keeps_empty_Meta :
  exists w,
    indexLabels_step worker10 leave_block0 = Returned w
    /\ w_kv w !! 1 = Some (MarshalBinary (mkMeta 10 []))
    /\ UnmarshalBinary (store_Get (w_kv w) 1) = Returned (mkMeta 10 []).
Proof. eexists. vm_compute. repeat split. Qed.

Lemma UnmarshalBinary_no_panic (b : list byte) : UnmarshalBinary b ≠ Panicked.
Proof.
  unfold UnmarshalBinary, IZYXSlice_UnmarshalBinary.
  repeat case_bool_decide; cbn [obind]; discriminate.
Qed.

Lemma GetLabelMeta_loop_no_panic (kv : kvstore) (n : nat) (lbls : list Z)
    (voxels : Z) (blocks : list IZYXString) :
  GetLabelMeta_loop kv n lbls voxels blocks ≠ Panicked.
Proof.
  revert voxels blocks. induction lbls as [|l lbls IH]; intros voxels blocks;
    [discriminate|].
  cbn [GetLabelMeta_loop]. case_bool_decide; [|apply IH].
  pose proof (UnmarshalBinary_no_panic (store_Get kv l)) as Hnp.
  destruct (UnmarshalBinary (store_Get kv l)) as [meta| |]; cbn [obind];
    [|discriminate|contradiction].
  repeat case_bool_decide; apply IH.
Qed.

Lemma GetLabelMeta_no_panic (kv : kvstore) (lbls : list Z) (bounds : Bounds) :
  GetLabelMeta kv lbls bounds ≠ Panicked.
Proof.
  unfold GetLabelMeta.
  pose proof (GetLabelMeta_loop_no_panic kv (length lbls) lbls 0 []) as Hnp.
  destruct (GetLabelMeta_loop kv (length lbls) lbls 0 []) as [vb| |];
    cbn [obind]; [destruct bounds; discriminate|discriminate|contradiction].
Qed.

Lemma indexLabels_step_unused (w : worker) (change : labelChange) :
  cache_unused w ->
  exists w', indexLabels_step w change = Returned w'
    /\ cache_unused w'
    /\ w_kv w' = read_modify_write (w_kv w) change.
Proof.
  intros [Hav Hsz]. unfold indexLabels_step, read_modify_write.
  rewrite GetLabelMeta_miss by (rewrite Hav; apply lookup_empty). cbn [obind].
  pose proof (GetLabelMeta_no_panic (w_kv w) [lc_label change] None) as Hnp.
  destruct (GetLabelMeta (w_kv w) [lc_label change] None) as [meta|msg|];
    [| |contradiction].
  - unfold Cache.AddLabelMeta. rewrite Hav, lookup_empty.
    rewrite bool_decide_eq_false_2 by exact Hsz. cbn [obind].
    eexists. split; [reflexivity|]. split; [split; [reflexivity|exact Hsz]|].
    reflexivity.
  - eexists. split; [reflexivity|]. split; [split; assumption|reflexivity].
Qed.

(** C4, amended.  A label worker whose cache holds no label (as every
    worker is from its start on) returns from every label change, with its
    cache as unused as before, and has written the label's Meta back
    whenever the Meta could be loaded: the record under the label's index
    key is then the serialization of the loaded Meta with the diffs
    applied, whatever its blocks sequence holds, an empty one included;
    its length is 8 bytes plus 12 per block, so the record is never empty.
    When the Meta could not be loaded the change is skipped and the store
    is left as it is.  In both cases no record of the store is removed. *)
Theorem indexLabels_step_writes_back (w : worker) (change : labelChange) :
  cache_unused w ->
  exists w',
    indexLabels_step w change = Returned w'
    /\ cache_unused w'
    /\ match GetLabelMeta (w_kv w) [lc_label change] None with
       | Returned meta0 =>
           let meta := applyChanges (lc_bdm change) meta0 in
           w_kv w' = <[lc_label change := MarshalBinary meta]> (w_kv w)
           /\ length (store_Get (w_kv w') (lc_label change))
              = (8 + 12 * length (Blocks meta))%nat
       | _ => w_kv w' = w_kv w
       end
    /\ (forall lbl, is_Some (w_kv w !! lbl) -> is_Some (w_kv w' !! lbl)).
Proof.
  intros Hw.
  destruct (indexLabels_step_unused w change Hw) as (w' & Hstep & Hw' & Hkv).
  exists w'. split; [exact Hstep|]. split; [exact Hw'|].
  unfold read_modify_write in Hkv.
  destruct (GetLabelMeta (w_kv w) [lc_label change] None) as [meta0|msg|].
  - cbv zeta. unfold PutLabelMeta in Hkv. rewrite Hkv. split; [split|].
    + reflexivity.
    + unfold store_Get. rewrite lookup_insert_eq. cbn [default from_option id].
      apply length_MarshalBinary.
    + intros lbl Hl. destruct (decide (lc_label change = lbl)) as [->|Hne].
      * rewrite lookup_insert_eq. eauto.
      * rewrite lookup_insert_ne by exact Hne. exact Hl.
  - rewrite Hkv. split; [reflexivity|auto].
  - rewrite Hkv. split; [reflexivity|auto].
Qed.

Lemma indexLabels_step_writes_back_witness :
  exists w',
    indexLabels_step worker10 leave_block0 = Returned w'
    /\ cache_unused w'
    /\ match GetLabelMeta (w_kv worker10) [lc_label leave_block0] None with
       | Returned meta0 =>
           let meta := applyChanges (lc_bdm leave_block0) meta0 in
           w_kv w' = <[lc_label leave_block0 := MarshalBinary meta]> (w_kv worker10)
           /\ length (store_Get (w_kv w') (lc_label leave_block0))
              = (8 + 12 * length (Blocks meta))%nat
       | _ => w_kv w' = w_kv worker10
       end
    /\ (forall lbl, is_Some (w_kv worker10 !! lbl) -> is_Some (w_kv w' !! lbl)).
Proof.
  apply (indexLabels_step_writes_back worker10 leave_block0).
  split; [reflexivity|vm_compute; discriminate].
Defined.

End PipelineProps.

(** * Properties of sparse-volume retrieval *)

Section SparseVolProps.
Import LabelIndex Pipeline SparseVol.

Variable within_xy within_xyz : Bounds -> IZYXString -> outcome bool.
Variable write_rles : list IZYXString -> list Z -> Bounds -> outcome (list byte).
Variable slow_rles : list IZYXString -> list Z -> Bounds -> outcome (list byte * Z).
Variable coarse_rles : list IZYXString -> outcome (list byte * Z).

(** For a label that was merged away, [GetMappedLabelMeta] returns a nil
    Meta, a nil label set and no error. *)
Lemma GetMappedLabelMeta_merged (mp : Mapping) kv lbl bounds :
  (FinalLabel mp lbl).2 = true ->
  GetMappedLabelMeta (Some mp) kv lbl bounds = Returned (None, None).
Proof. intros H. unfold GetMappedLabelMeta. rewrite H. reflexivity. Qed.

(** [GetSparseCoarseVol] returns a nil payload and no error for it. *)
Lemma GetSparseCoarseVol_merged (mp : Mapping) kv lbl bounds :
  (FinalLabel mp lbl).2 = true ->
  GetSparseCoarseVol coarse_rles (Some mp) kv lbl bounds = Returned [].
Proof. intros H. unfold GetSparseCoarseVol. rewrite H. reflexivity. Qed.

(** [GetLegacyRLE] hands the nil Meta to [getLegacyRLEs] or
    [getLegacySlowRLEs], which dereference it. *)
Lemma GetLegacyRLE_merged (mp : Mapping) kv lbl bounds old :
  (FinalLabel mp lbl).2 = true ->
  GetLegacyRLE within_xy within_xyz write_rles slow_rles (Some mp) kv lbl bounds old
  = Panicked.
Proof.
  intros H. unfold GetLegacyRLE. rewrite GetMappedLabelMeta_merged by exact H.
  cbn. destruct old; reflexivity.
Qed.

End SparseVolProps.

(** C6 fails on the code for [GetLegacyRLE].  With label 5 merged into
    label 7, [GetSparseCoarseVol] of label 5 returns a nil payload and no
    error, and so does the test of [WriteStreamingRLE]; but [GetLegacyRLE]
    of label 5, in either format, ends in a nil dereference instead of
    returning, whatever the store, the bounds and the decoders are. *)
Theorem GetLegacyRLE_merged_label_panics
    (within_xy within_xyz : Pipeline.Bounds -> LabelIndex.IZYXString -> outcome bool)
    (write_rles : list LabelIndex.IZYXString -> list Z -> Pipeline.Bounds -> outcome (list byte))
    (slow_rles : list LabelIndex.IZYXString -> list Z -> Pipeline.Bounds -> outcome (list byte * Z))
    (coarse_rles : list LabelIndex.IZYXString -> outcome (list byte * Z))
    (kv : gmap Z (list byte)) (bounds : Pipeline.Bounds) (old : bool) :
  let mapping := Some SparseVol.merged_5_into_7 in
  SparseVol.GetSparseCoarseVol coarse_rles mapping kv 5 bounds = Returned []
  /\ SparseVol.WriteStreamingRLE_found within_xy mapping kv 5 bounds = Returned false
  /\ SparseVol.GetLegacyRLE within_xy within_xyz write_rles slow_rles
                            mapping kv 5 bounds old = Panicked.
Proof.
  cbv zeta. split; [|split].
  - apply GetSparseCoarseVol_merged. reflexivity.
  - unfold SparseVol.WriteStreamingRLE_found.
    rewrite GetMappedLabelMeta_merged by reflexivity. reflexivity.
  - apply GetLegacyRLE_merged. reflexivity.
Qed.

(** * Properties of the run-length scanners *)

Section RLEProps.
Import LabelIndex RLE.

Lemma wrap_i32_small (z : Z) : - 2 ^ 31 <= z < 2 ^ 31 -> wrap_i32 z = z.
Proof. intros H. unfold wrap_i32. rewrite Z.mod_small; lia. Qed.

Lemma wrap_i64_small (z : Z) : - 2 ^ 63 <= z < 2 ^ 63 -> wrap_i64 z = z.
Proof. intros H. unfold wrap_i64. rewrite Z.mod_small; lia. Qed.

(** Invariants of a counted loop. *)
Lemma for_loop_inv {St : Type} (P : Z -> St -> Prop) (body : St -> Z -> outcome St)
    (n : nat) (i : Z) (s : St) :
  P i s ->
  (forall j s, i <= j < i + Z.of_nat n -> P j s ->
               exists s', body s j = Returned s' /\ P (j + 1) s') ->
  exists s', for_loop n i body s = Returned s' /\ P (i + Z.of_nat n) s'.
Proof.
  revert i s. induction n as [|n IH]; intros i s Hi Hstep.
  - exists s. split; [reflexivity|]. rewrite Z.add_0_r. exact Hi.
  - destruct (Hstep i s) as (s1 & Hb & H1); [lia|exact Hi|].
    destruct (IH (i + 1) s1 H1) as (s2 & Hl & H2).
    { intros j s' Hj. apply Hstep. lia. }
    exists s2. cbn [for_loop]. rewrite Hb. cbn [obind]. split; [exact Hl|].
    replace (i + Z.of_nat (S n)) with (i + 1 + Z.of_nat n) by lia. exact H2.
Qed.

Lemma for_range_inv {St : Type} (P : Z -> St -> Prop) (body : St -> Z -> outcome St)
    (first last : Z) (s : St) :
  first <= last + 1 ->
  P first s ->
  (forall j s, first <= j <= last -> P j s ->
               exists s', body s j = Returned s' /\ P (j + 1) s') ->
  exists s', for_range first last body s = Returned s' /\ P (last + 1) s'.
Proof.
  intros Hle Hi Hstep. unfold for_range.
  destruct (for_loop_inv P body (Z.to_nat (last - first + 1)) first s Hi)
    as (s' & Hl & Hp).
  { intros j s' Hj. apply Hstep. lia. }
  exists s'. split; [exact Hl|].
  replace (last + 1) with (first + Z.of_nat (Z.to_nat (last - first + 1))) by lia.
  exact Hp.
Qed.

Lemma for_loop_ext {St : Type} (body1 body2 : St -> Z -> outcome St) (n : nat) (i : Z) (s : St) :
  (forall s j, body1 s j = body2 s j) ->
  for_loop n i body1 s = for_loop n i body2 s.
Proof.
  intros Hb. revert i s. induction n as [|n IH]; intros i s; [reflexivity|].
  cbn [for_loop]. rewrite Hb. destruct (body2 s i); cbn [obind]; auto.
Qed.

Variable BlockSize : Point3d.
Variable IndexZYX : IZYXString -> outcome Point3d.
Variable lbls : gset Z.
Variable OutsideX OutsideY OutsideZ : Z -> bool.
Variable idx : Point3d.
Variable data : list byte.
Hypothesis Hok : block_ok BlockSize idx data.

Let bx := px BlockSize.
Let by_ := py BlockSize.
Let bz := pz BlockSize.
Let fx := px idx * bx.
Let fy := py idx * by_.
Let fz := pz idx * bz.

Lemma MinPoint_eq : MinPoint BlockSize idx = mkPoint fx fy fz.
Proof.
  destruct Hok as (? & ? & ? & ? & ? & ? & ? & ? & ? & ? & ?).
  unfold MinPoint. rewrite !wrap_i32_small; [reflexivity|fold bz|fold by_|fold bx]; nia.
Qed.

Lemma MaxPoint_eq :
  MaxPoint BlockSize idx = mkPoint (fx + bx - 1) (fy + by_ - 1) (fz + bz - 1).
Proof.
  destruct Hok as (? & ? & ? & ? & ? & ? & ? & ? & ? & ? & ?).
  unfold MaxPoint.
  rewrite !(wrap_i32_small (_ * _)) by (fold bx by_ bz; nia).
  rewrite !wrap_i32_small by (fold bx by_ bz; nia).
  unfold fx, fy, fz, bx, by_, bz. f_equal; lia.
Qed.

Let firstPt := mkPoint fx fy fz.

Definition good (x y z : Z) : Prop :=
  voxel_label BlockSize data firstPt x y z ≠ 0
  /\ voxel_label BlockSize data firstPt x y z ∈ lbls
  /\ OutsideX x = false /\ OutsideY y = false /\ OutsideZ z = false.

Definition run_ok (r : Run) : Prop :=
  run_in_row BlockSize lbls OutsideX OutsideY OutsideZ data idx r.

Definition in_block (y z : Z) : Prop :=
  fy <= y < fy + by_ /\ fz <= z < fz + bz.

Lemma run_ok_intro x y z len :
  1 <= len <= bx -> fx <= x -> x + len <= fx + bx -> in_block y z ->
  (forall k, x <= k < x + len -> good k y z) ->
  run_ok (mkRun (mkPoint x y z) len).
Proof.
  intros Hlen Hx Hend [Hy Hz] Hgood.
  unfold run_ok, run_in_row. rewrite MinPoint_eq, MaxPoint_eq.
  cbn [run_start run_length px py pz]. unfold in_block in Hy, Hz.
  split; [lia|]. split; [lia|]. split; [lia|]. split; [lia|]. split; [lia|].
  intros k Hk. apply (Hgood (x + k)). lia.
Qed.

(** The open run while the x scan of row [(y, z)] stands before [x]. *)
Definition run_inv (y z x : Z) (st : scan) : Prop :=
  0 <= spanRun st <= x - fx
  /\ (0 < spanRun st -> spanStart st = mkPoint (x - spanRun st) y z)
  /\ (forall k, x - spanRun st <= k < x -> good k y z)
  /\ Forall run_ok (buf st).

(** No run is open. *)
Definition closed (st : scan) : Prop :=
  spanRun st = 0 /\ Forall run_ok (buf st).

Lemma closed_run_inv y z st : closed st -> run_inv y z fx st.
Proof.
  intros [H0 Hb]. unfold run_inv. rewrite H0.
  split; [lia|]. split; [lia|]. split; [intros k Hk; lia|exact Hb].
Qed.

Lemma close_run_closed y z x st :
  x <= fx + bx -> in_block y z -> run_inv y z x st ->
  closed (close_run st) /\ start (close_run st) = start st.
Proof.
  intros Hx Hyz (Hrun & Hstart & Hgood & Hbuf). unfold close_run, closed.
  case_bool_decide as Hopen; cbn [spanRun buf start]; (split; [split|]); auto.
  apply Forall_app. split; [exact Hbuf|]. apply Forall_singleton.
  rewrite (Hstart Hopen).
  apply run_ok_intro; try lia; [exact Hyz|].
  intros k Hk. apply Hgood. lia.
Qed.

Lemma offset_bounds x y z :
  fx <= x < fx + bx -> in_block y z ->
  0 <= voxel_offset BlockSize firstPt x y z
  /\ voxel_offset BlockSize firstPt x y z + 8 <= Z.of_nat (length data).
Proof.
  intros Hx [Hy Hz].
  destruct Hok as (Hbx & Hby & Hbz & _ & _ & _ & _ & _ & _ & _ & Hlen).
  rewrite Hlen. unfold voxel_offset. cbn [px py pz firstPt].
  fold bx by_ bz in Hbx, Hby, Hbz |- *.
  assert (0 <= z - fz <= bz - 1) by lia.
  assert (0 <= y - fy <= by_ - 1) by lia.
  assert (0 <= x - fx <= bx - 1) by lia.
  assert (0 <= (z - fz) * by_ + (y - fy) <= bz * by_ - 1) by nia.
  assert (0 <= ((z - fz) * by_ + (y - fy)) * bx + (x - fx) <= bz * by_ * bx - 1) by nia.
  nia.
Qed.

Lemma read_label_ok x y z st :
  fx <= x < fx + bx -> in_block y z ->
  start st = voxel_offset BlockSize firstPt x y z ->
  read_label data st
  = Returned (voxel_label BlockSize data firstPt x y z, skip 8 st).
Proof.
  intros Hx Hyz Hst. destruct (offset_bounds x y z Hx Hyz) as [H0 H8].
  unfold read_label, go_slice. rewrite Hst.
  rewrite bool_decide_eq_true_2 by (split; [exact H0|split; [lia|exact H8]]).
  cbn [obind]. unfold voxel_label. do 2 f_equal.
  replace (Z.to_nat _) with 8%nat by lia. reflexivity.
Qed.

Lemma offset_next x y z :
  voxel_offset BlockSize firstPt x y z + 8 = voxel_offset BlockSize firstPt (x + 1) y z.
Proof. unfold voxel_offset. lia. Qed.

Lemma offset_next_row y z :
  voxel_offset BlockSize firstPt (fx + bx) y z = voxel_offset BlockSize firstPt fx (y + 1) z.
Proof. unfold voxel_offset. cbn [px py pz firstPt]. fold bx by_. lia. Qed.

Lemma offset_next_plane z :
  voxel_offset BlockSize firstPt fx (fy + by_) z = voxel_offset BlockSize firstPt fx fy (z + 1).
Proof. unfold voxel_offset. cbn [px py pz firstPt]. fold bx by_. lia. Qed.

(** One voxel of the x scan. *)
Lemma bounded_voxel_inv x y z st :
  fx <= x < fx + bx -> in_block y z ->
  OutsideY y = false -> OutsideZ z = false ->
  start st = voxel_offset BlockSize firstPt x y z /\ run_inv y z x st ->
  exists st', bounded_voxel lbls OutsideX data y z st x = Returned st'
    /\ start st' = voxel_offset BlockSize firstPt (x + 1) y z
    /\ run_inv y z (x + 1) st'.
Proof.
  intros Hx Hyz HoY HoZ [Hst Hinv].
  unfold bounded_voxel. rewrite (read_label_ok x y z st Hx Hyz Hst). cbn [obind].
  set (label := voxel_label BlockSize data firstPt x y z).
  assert (Hbx : bx < 2 ^ 31).
  { destruct Hok as (Hbx & Hby & Hbz & Hsz & _). fold bx by_ bz in Hbx, Hby, Hbz, Hsz. nia. }
  set (inSpan := if bool_decide (label ≠ 0) then
                   let inSpan := bool_decide (label ∈ lbls) in
                   if inSpan && OutsideX x then false else inSpan
                 else false).
  assert (Hin : inSpan = true -> good x y z).
  { unfold inSpan, good. fold label. repeat case_bool_decide; cbn;
      destruct (OutsideX x); cbn; intros; try discriminate; auto. }
  destruct Hinv as (Hrun & Hstart & Hgood & Hbuf).
  destruct inSpan.
  - eexists. split; [reflexivity|]. unfold extend_run, skip.
    cbn [start spanRun spanStart buf newRuns].
    rewrite wrap_i32_small by lia.
    split; [rewrite Hst; apply offset_next|].
    unfold run_inv. cbn [start spanRun spanStart buf newRuns].
    split; [lia|]. split; [|split; [|exact Hbuf]].
    + intros _. case_bool_decide as H1.
      * f_equal. lia.
      * rewrite Hstart by lia. f_equal. lia.
    + intros k Hk. destruct (decide (k = x)) as [->|Hne]; [auto|].
      apply Hgood. lia.
  - eexists. split; [reflexivity|].
    destruct (close_run_closed y z x (skip 8 st)) as [[Hc0 Hcb] Hcs];
      [lia|exact Hyz|split; [|split; [|split]]; auto; cbn; lia|].
    rewrite Hcs. cbn [skip start].
    split; [rewrite Hst; apply offset_next|].
    unfold run_inv. rewrite Hc0.
    split; [lia|]. split; [lia|]. split; [intros k Hk; lia|exact Hcb].
Qed.

(** The x scan of one row, with the break that follows it. *)
Lemma row_inv y z st :
  in_block y z -> OutsideY y = false -> OutsideZ z = false ->
  start st = voxel_offset BlockSize firstPt fx y z -> closed st ->
  exists st',
    (let! st := for_range fx (fx + bx - 1) (bounded_voxel lbls OutsideX data y z) st in
     Returned (close_run st)) = Returned st'
    /\ start st' = voxel_offset BlockSize firstPt fx (y + 1) z /\ closed st'.
Proof.
  intros Hyz HoY HoZ Hst Hcl.
  assert (Hbx : 0 < bx) by (destruct Hok as (Hbx & _); exact Hbx).
  destruct (for_range_inv
              (fun x st => start st = voxel_offset BlockSize firstPt x y z
                           /\ run_inv y z x st)
              (bounded_voxel lbls OutsideX data y z) fx (fx + bx - 1) st)
    as (st1 & Hloop & Hst1 & Hinv1).
  - lia.
  - split; [exact Hst|]. apply closed_run_inv. exact Hcl.
  - intros x s Hx Hs. apply bounded_voxel_inv; auto. lia.
  - rewrite Hloop. cbn [obind]. eexists. split; [reflexivity|].
    replace (fx + bx - 1 + 1) with (fx + bx) in Hst1, Hinv1 by lia.
    destruct (close_run_closed y z (fx + bx) st1) as [Hc Hs]; [lia|exact Hyz|exact Hinv1|].
    split; [|exact Hc]. rewrite Hs, Hst1. apply offset_next_row.
Qed.

Lemma skips_eq :
  wrap_i32 (bx * 8) = 8 * bx /\ wrap_i64 (by_ * (8 * bx)) = 8 * (by_ * bx).
Proof.
  destruct Hok as (Hbx & Hby & Hbz & Hsz & _). fold bx by_ bz in Hbx, Hby, Hbz, Hsz.
  assert (0 < bx * by_) by nia.
  assert (bx * by_ <= bx * by_ * bz) by nia.
  assert (bx <= bx * by_) by nia.
  split.
  - rewrite wrap_i32_small by lia. lia.
  - rewrite wrap_i64_small by lia. lia.
Qed.

(** The y scan of one plane. *)
Lemma plane_inv z st :
  fz <= z < fz + bz -> OutsideZ z = false ->
  start st = voxel_offset BlockSize firstPt fx fy z -> closed st ->
  exists st',
    for_range fy (fy + by_ - 1) (fun st y =>
      if OutsideY y then Returned (skip (wrap_i32 (bx * 8)) st)
      else
        let! st := for_range fx (fx + bx - 1) (bounded_voxel lbls OutsideX data y z) st in
        Returned (close_run st)) st = Returned st'
    /\ start st' = voxel_offset BlockSize firstPt fx fy (z + 1) /\ closed st'.
Proof.
  intros Hz HoZ Hst Hcl.
  assert (Hby : 0 < by_) by (destruct Hok as (_ & Hby & _); exact Hby).
  match goal with |- exists st', for_range _ _ ?body _ = _ /\ _ =>
    destruct (for_range_inv
                (fun y st => start st = voxel_offset BlockSize firstPt fx y z /\ closed st)
                body fy (fy + by_ - 1) st) as (st1 & Hloop & Hst1 & Hcl1)
  end.
  - lia.
  - split; assumption.
  - intros y s Hy [Hs Hc]. destruct (OutsideY y) eqn:HoY.
    + eexists. split; [reflexivity|]. split; [|exact Hc].
      cbn [skip start]. rewrite Hs, (proj1 skips_eq), <- offset_next_row.
      unfold voxel_offset. lia.
    + apply row_inv; auto. split; lia.
  - exists st1. split; [exact Hloop|].
    replace (fy + by_ - 1 + 1) with (fy + by_) in Hst1 by lia.
    split; [|exact Hcl1]. rewrite Hst1. apply offset_next_plane.
Qed.

Lemma addBoundedRLEs_ok (izyx : IZYXString) :
  IndexZYX izyx = Returned idx ->
  exists runs n,
    addBoundedRLEs BlockSize IndexZYX lbls OutsideX OutsideY OutsideZ izyx data
    = Returned (runs, n)
    /\ Forall run_ok runs.
Proof.
  intros Hidx. unfold addBoundedRLEs.
  destruct Hok as (Hbx & Hby & Hbz & Hsz & _ & _ & _ & _ & _ & _ & Hlen).
  fold bx by_ bz in Hbx, Hby, Hbz, Hsz, Hlen.
  rewrite bool_decide_eq_false_2.
  2:{ intros Hne. apply Hne. rewrite Hlen. unfold Prod. fold bx by_ bz.
      assert (0 < bx * by_) by nia.
      assert (0 < bx * by_ * bz) by nia.
      rewrite (wrap_i64_small (bx * by_ * bz)) by lia.
      rewrite wrap_i64_small by lia. reflexivity. }
  rewrite Hidx. cbn [obind]. rewrite MinPoint_eq, MaxPoint_eq. cbn [px py pz].
  fold bx by_.
  match goal with |- exists runs n, obind (for_range _ _ ?body _) _ = _ /\ _ =>
    destruct (for_range_inv
                (fun z st => start st = voxel_offset BlockSize firstPt fx fy z /\ closed st)
                body fz (fz + bz - 1) scan_zero) as (st1 & Hloop & Hst1 & Hcl1)
  end.
  - lia.
  - split; [|split; [reflexivity|constructor]].
    unfold voxel_offset. cbn. lia.
  - intros z s Hz [Hs Hc]. destruct (OutsideZ z) eqn:HoZ.
    + eexists. split; [reflexivity|]. split; [|exact Hc].
      cbn [skip start]. rewrite Hs, (proj1 skips_eq), (proj2 skips_eq).
      unfold voxel_offset. cbn [px py pz firstPt]. fold bx by_. lia.
    + apply plane_inv; auto. lia.
  - rewrite Hloop. cbn [obind]. eexists _, _. split; [reflexivity|].
    exact (proj2 Hcl1).
Qed.

(** ** The runs cover the requested voxels, each once *)

Lemma sum_from_snoc (f : Z -> Z) (n : nat) (i : Z) :
  sum_from f (S n) i = sum_from f n i + f (i + Z.of_nat n).
Proof.
  revert i. induction n as [|n IH]; intros i.
  - cbn. rewrite !Z.add_0_r. reflexivity.
  - change (sum_from f (S (S n)) i) with (f i + sum_from f (S n) (i + 1)).
    rewrite IH. cbn [sum_from].
    replace (i + 1 + Z.of_nat n) with (i + Z.of_nat (S n)) by lia. lia.
Qed.

Lemma sum_from_zero (f : Z -> Z) (n : nat) (i : Z) :
  (forall j, f j = 0) -> sum_from f n i = 0.
Proof.
  intros Hf. revert i. induction n as [|n IH]; intros i; [reflexivity|].
  cbn [sum_from]. rewrite Hf, IH. reflexivity.
Qed.

Lemma sum_from_next (f : Z -> Z) (first j : Z) :
  first <= j ->
  sum_from f (Z.to_nat (j + 1 - first)) first
  = sum_from f (Z.to_nat (j - first)) first + f j.
Proof.
  intros Hj. replace (Z.to_nat (j + 1 - first)) with (S (Z.to_nat (j - first))) by lia.
  rewrite sum_from_snoc. do 2 f_equal. lia.
Qed.

Lemma total_length_snoc (runs : list Run) (r : Run) :
  total_length (runs ++ [r]) = total_length runs + run_length r.
Proof.
  unfold total_length. induction runs as [|r0 runs IH]; cbn; [lia|].
  cbn in IH. rewrite IH. lia.
Qed.

(** The voxels accounted for: those of the runs written and of the open
    run. *)
Definition covered (st : scan) : Z := total_length (buf st) + spanRun st.

Definition req (x y z : Z) : Z :=
  if requested BlockSize lbls OutsideX OutsideY OutsideZ data firstPt x y z
  then 1 else 0.

Lemma covered_close_run (st : scan) :
  0 <= spanRun st ->
  covered (close_run st) = covered st /\ spanRun (close_run st) = 0
  /\ start (close_run st) = start st.
Proof.
  intros H0. unfold close_run, covered. case_bool_decide; cbn [buf spanRun start].
  - rewrite total_length_snoc. cbn [run_length]. repeat split; lia.
  - repeat split; lia.
Qed.

Lemma bounded_voxel_covered x y z st :
  fx <= x < fx + bx -> in_block y z ->
  OutsideY y = false -> OutsideZ z = false ->
  start st = voxel_offset BlockSize firstPt x y z ->
  0 <= spanRun st <= x - fx ->
  exists st', bounded_voxel lbls OutsideX data y z st x = Returned st'
    /\ start st' = voxel_offset BlockSize firstPt (x + 1) y z
    /\ 0 <= spanRun st' <= x + 1 - fx
    /\ covered st' = covered st + req x y z.
Proof.
  intros Hx Hyz HoY HoZ Hst Hrun.
  unfold bounded_voxel. rewrite (read_label_ok x y z st Hx Hyz Hst). cbn [obind].
  assert (Hbx : bx < 2 ^ 31).
  { destruct Hok as (Hbx & Hby & Hbz & Hsz & _). fold bx by_ bz in Hbx, Hby, Hbz, Hsz. nia. }
  unfold req, requested. rewrite HoY, HoZ. cbn [negb]. rewrite !andb_true_r.
  set (label := voxel_label BlockSize data firstPt x y z).
  assert (Hin : (if bool_decide (label ≠ 0) then
                   let inSpan := bool_decide (label ∈ lbls) in
                   if inSpan && OutsideX x then false else inSpan
                 else false)
                = bool_decide (label ≠ 0) && bool_decide (label ∈ lbls) && negb (OutsideX x)).
  { destruct (bool_decide (label ≠ 0)), (bool_decide (label ∈ lbls)), (OutsideX x);
      reflexivity. }
  cbv zeta in Hin. rewrite Hin.
  destruct (bool_decide (label ≠ 0) && bool_decide (label ∈ lbls) && negb (OutsideX x)).
  - eexists. split; [reflexivity|]. unfold extend_run, skip, covered.
    cbn [start spanRun spanStart buf newRuns].
    rewrite wrap_i32_small by lia.
    split; [rewrite Hst; apply offset_next|]. split; lia.
  - eexists. split; [reflexivity|].
    destruct (covered_close_run (skip 8 st)) as (Hc & H0 & Hs); [cbn; lia|].
    rewrite Hc, H0, Hs. unfold covered. cbn [skip start buf spanRun].
    split; [rewrite Hst; apply offset_next|]. split; lia.
Qed.

Lemma row_covered y z st :
  in_block y z -> OutsideY y = false -> OutsideZ z = false ->
  start st = voxel_offset BlockSize firstPt fx y z -> spanRun st = 0 ->
  exists st',
    (let! st := for_range fx (fx + bx - 1) (bounded_voxel lbls OutsideX data y z) st in
     Returned (close_run st)) = Returned st'
    /\ start st' = voxel_offset BlockSize firstPt fx (y + 1) z
    /\ spanRun st' = 0
    /\ total_length (buf st')
       = total_length (buf st) + sum_from (fun x => req x y z) (Z.to_nat bx) fx.
Proof.
  intros Hyz HoY HoZ Hst H0.
  assert (Hbx : 0 < bx) by (destruct Hok as (Hbx & _); exact Hbx).
  destruct (for_range_inv
              (fun x s => start s = voxel_offset BlockSize firstPt x y z
                          /\ 0 <= spanRun s <= x - fx
                          /\ covered s = covered st
                                         + sum_from (fun x => req x y z) (Z.to_nat (x - fx)) fx)
              (bounded_voxel lbls OutsideX data y z) fx (fx + bx - 1) st)
    as (st1 & Hloop & Hst1 & Hrun1 & Hcov1).
  - lia.
  - split; [exact Hst|]. split; [lia|]. rewrite Z.sub_diag.
    change (Z.to_nat 0) with 0%nat. cbn [sum_from]. lia.
  - intros x s Hx (Hs & Hr & Hc).
    destruct (bounded_voxel_covered x y z s) as (s' & Hb & Hs' & Hr' & Hc'); auto; [lia|].
    exists s'. split; [exact Hb|]. split; [exact Hs'|]. split; [exact Hr'|].
    rewrite Hc', Hc, sum_from_next by lia. lia.
  - rewrite Hloop. cbn [obind]. eexists. split; [reflexivity|].
    replace (fx + bx - 1 + 1) with (fx + bx) in Hst1, Hrun1, Hcov1 by lia.
    destruct (covered_close_run st1) as (Hc & Hz & Hs); [lia|].
    split; [rewrite Hs, Hst1; apply offset_next_row|]. split; [exact Hz|].
    unfold covered in Hc, Hcov1. rewrite Hz, H0 in *.
    replace (fx + bx - fx) with bx in Hcov1 by lia. lia.
Qed.

Lemma plane_covered z st :
  fz <= z < fz + bz -> OutsideZ z = false ->
  start st = voxel_offset BlockSize firstPt fx fy z -> spanRun st = 0 ->
  exists st',
    for_range fy (fy + by_ - 1) (fun st y =>
      if OutsideY y then Returned (skip (wrap_i32 (bx * 8)) st)
      else
        let! st := for_range fx (fx + bx - 1) (bounded_voxel lbls OutsideX data y z) st in
        Returned (close_run st)) st = Returned st'
    /\ start st' = voxel_offset BlockSize firstPt fx fy (z + 1)
    /\ spanRun st' = 0
    /\ total_length (buf st')
       = total_length (buf st)
         + sum_from (fun y => sum_from (fun x => req x y z) (Z.to_nat bx) fx)
                    (Z.to_nat by_) fy.
Proof.
  intros Hz HoZ Hst H0.
  assert (Hby : 0 < by_) by (destruct Hok as (_ & Hby & _); exact Hby).
  match goal with |- exists st', for_range _ _ ?body _ = _ /\ _ =>
    destruct (for_range_inv
                (fun y s => start s = voxel_offset BlockSize firstPt fx y z
                            /\ spanRun s = 0
                            /\ total_length (buf s)
                               = total_length (buf st)
                                 + sum_from (fun y => sum_from (fun x => req x y z) (Z.to_nat bx) fx)
                                            (Z.to_nat (y - fy)) fy)
                body fy (fy + by_ - 1) st) as (st1 & Hloop & Hst1 & Hz1 & Ht1)
  end.
  - lia.
  - split; [exact Hst|]. split; [exact H0|]. rewrite Z.sub_diag.
    change (Z.to_nat 0) with 0%nat. cbn [sum_from]. lia.
  - intros y s Hy (Hs & Hr & Ht). rewrite sum_from_next by lia.
    destruct (OutsideY y) eqn:HoY.
    + eexists. split; [reflexivity|]. cbn [skip start spanRun buf].
      split; [rewrite Hs, (proj1 skips_eq), <- offset_next_row; unfold voxel_offset; lia|].
      split; [exact Hr|]. rewrite Ht.
      rewrite (sum_from_zero (fun x => req x y z)); [lia|].
      intros x. unfold req, requested. rewrite HoY. cbn [negb].
      rewrite andb_false_r. reflexivity.
    + destruct (row_covered y z s) as (s' & Hb & Hs' & Hr' & Ht'); auto; [split; lia|].
      exists s'. split; [exact Hb|]. split; [exact Hs'|]. split; [exact Hr'|].
      rewrite Ht', Ht. lia.
  - exists st1. split; [exact Hloop|].
    replace (fy + by_ - 1 + 1) with (fy + by_) in Hst1, Ht1 by lia.
    split; [rewrite Hst1; apply offset_next_plane|]. split; [exact Hz1|].
    rewrite Ht1. replace (fy + by_ - fy) with by_ by lia. reflexivity.
Qed.

Lemma addBoundedRLEs_covers (izyx : IZYXString) :
  IndexZYX izyx = Returned idx ->
  exists runs n,
    addBoundedRLEs BlockSize IndexZYX lbls OutsideX OutsideY OutsideZ izyx data
    = Returned (runs, n)
    /\ total_length runs
       = requested_voxels BlockSize lbls OutsideX OutsideY OutsideZ data idx.
Proof.
  intros Hidx. unfold addBoundedRLEs, requested_voxels.
  destruct Hok as (Hbx & Hby & Hbz & Hsz & _ & _ & _ & _ & _ & _ & Hlen).
  fold bx by_ bz in Hbx, Hby, Hbz, Hsz, Hlen.
  rewrite bool_decide_eq_false_2.
  2:{ intros Hne. apply Hne. rewrite Hlen. unfold Prod. fold bx by_ bz.
      assert (0 < bx * by_) by nia.
      assert (0 < bx * by_ * bz) by nia.
      rewrite (wrap_i64_small (bx * by_ * bz)) by lia.
      rewrite wrap_i64_small by lia. reflexivity. }
  rewrite Hidx. cbn [obind]. rewrite MinPoint_eq, MaxPoint_eq. cbn [px py pz].
  fold bx by_ bz. fold firstPt.
  match goal with |- exists runs n, obind (for_range _ _ ?body _) _ = _ /\ _ =>
    destruct (for_range_inv
                (fun z s => start s = voxel_offset BlockSize firstPt fx fy z
                            /\ spanRun s = 0
                            /\ total_length (buf s)
                               = sum_from (fun z =>
                                   sum_from (fun y => sum_from (fun x => req x y z) (Z.to_nat bx) fx)
                                            (Z.to_nat by_) fy) (Z.to_nat (z - fz)) fz)
                body fz (fz + bz - 1) scan_zero) as (st1 & Hloop & Hst1 & Hz1 & Ht1)
  end.
  - lia.
  - split; [unfold voxel_offset; cbn; lia|]. split; [reflexivity|].
    rewrite Z.sub_diag. reflexivity.
  - intros z s Hz (Hs & Hr & Ht). rewrite sum_from_next by lia.
    destruct (OutsideZ z) eqn:HoZ.
    + eexists. split; [reflexivity|]. cbn [skip start spanRun buf].
      split.
      { rewrite Hs, (proj1 skips_eq), (proj2 skips_eq).
        unfold voxel_offset. cbn [px py pz firstPt]. fold bx by_. lia. }
      split; [exact Hr|]. rewrite Ht.
      rewrite (sum_from_zero (fun y => sum_from (fun x => req x y z) (Z.to_nat bx) fx));
        [lia|].
      intros y. apply sum_from_zero. intros x. unfold req, requested.
      rewrite HoZ. cbn [negb]. rewrite andb_false_r. reflexivity.
    + destruct (plane_covered z s) as (s' & Hb & Hs' & Hr' & Ht'); auto; [lia|].
      exists s'. split; [exact Hb|]. split; [exact Hs'|]. split; [exact Hr'|].
      rewrite Ht', Ht. lia.
  - rewrite Hloop. cbn [obind]. eexists _, _. split; [reflexivity|].
    rewrite Ht1. replace (fz + bz - 1 + 1 - fz) with bz by lia. reflexivity.
Qed.

End RLEProps.

Section Unbounded.
Import LabelIndex RLE.

Variable BlockSize : Point3d.
Variable IndexZYX : IZYXString -> outcome Point3d.
Variable lbls : gset Z.

Lemma voxel_bounded_nowhere data y z st x :
  voxel lbls data y z st x = bounded_voxel lbls RLE.nowhere data y z st x.
Proof.
  unfold voxel, bounded_voxel.
  destruct (read_label data st) as [[label st']| |]; cbn [obind]; try reflexivity.
  unfold nowhere. case_bool_decide; [|reflexivity].
  destruct (bool_decide (label ∈ lbls)); reflexivity.
Qed.

(** Without voxel bounds the two scanners are one. *)
Lemma addRLEs_addBoundedRLEs izyx data :
  addRLEs BlockSize IndexZYX lbls izyx data
  = addBoundedRLEs BlockSize IndexZYX lbls RLE.nowhere RLE.nowhere RLE.nowhere izyx data.
Proof.
  unfold addRLEs, addBoundedRLEs. case_bool_decide; [reflexivity|].
  destruct (IndexZYX izyx) as [idx| |]; cbn [obind]; try reflexivity.
  f_equal. unfold for_range. apply for_loop_ext. intros s z.
  cbn [nowhere]. apply for_loop_ext. intros s' y.
  cbn [nowhere]. f_equal. apply for_loop_ext. intros s'' x.
  apply voxel_bounded_nowhere.
Qed.

End Unbounded.

(** C7.  On a well-formed block, [addRLEs] and [addBoundedRLEs] return,
    and every run they emit lies at a single (y, z) of the block: it starts
    within the row and ends within it, so that it crosses no row boundary
    and is no longer than the x extent of the block; and each of its voxels
    carries a non-zero label of the requested set (and, under voxel bounds,
    is within them). *)
Theorem RLE_runs_within_row
    (BlockSize : RLE.Point3d)
    (IndexZYX : LabelIndex.IZYXString -> outcome RLE.Point3d)
    (lbls : gset Z) (OutsideX OutsideY OutsideZ : Z -> bool)
    (izyx : LabelIndex.IZYXString) (idx : RLE.Point3d) (data : list byte) :
  IndexZYX izyx = Returned idx ->
  RLE.block_ok BlockSize idx data ->
  (exists runs n,
      RLE.addRLEs BlockSize IndexZYX lbls izyx data = Returned (runs, n)
      /\ Forall (RLE.run_in_row BlockSize lbls RLE.nowhere RLE.nowhere RLE.nowhere data idx) runs)
  /\ (exists runs n,
        RLE.addBoundedRLEs BlockSize IndexZYX lbls OutsideX OutsideY OutsideZ izyx data
        = Returned (runs, n)
        /\ Forall (RLE.run_in_row BlockSize lbls OutsideX OutsideY OutsideZ data idx) runs).
Proof.
  intros Hidx Hok. split.
  - rewrite addRLEs_addBoundedRLEs.
    exact (addBoundedRLEs_ok BlockSize IndexZYX lbls RLE.nowhere RLE.nowhere RLE.nowhere
                             idx data Hok izyx Hidx).
  - exact (addBoundedRLEs_ok BlockSize IndexZYX lbls OutsideX OutsideY OutsideZ
                             idx data Hok izyx Hidx).
Qed.

Example addRLEs_block_2x2 :
  RLE.addRLEs (RLE.mkPoint 2 2 1) Fixtures.origin_index {[ 7 ]} [] Fixtures.block_2x2
  = Returned ([RLE.mkRun (RLE.mkPoint 0 0 0) 2; RLE.mkRun (RLE.mkPoint 0 1 0) 1], 2).
Proof. vm_compute. reflexivity. Qed.

Lemma RLE_runs_within_row_witness :
  exists runs n,
    RLE.addRLEs (RLE.mkPoint 2 2 1) Fixtures.origin_index {[ 7 ]} [] Fixtures.block_2x2 = Returned (runs, n)
    /\ Forall (RLE.run_in_row (RLE.mkPoint 2 2 1) {[ 7 ]} RLE.nowhere RLE.nowhere RLE.nowhere
                              Fixtures.block_2x2 (RLE.mkPoint 0 0 0)) runs.
Proof.
  assert (Hok : RLE.block_ok (RLE.mkPoint 2 2 1) (RLE.mkPoint 0 0 0) Fixtures.block_2x2).
  { unfold RLE.block_ok. cbn [RLE.px RLE.py RLE.pz].
    change (length Fixtures.block_2x2) with 32%nat. lia. }
  exact (proj1 (RLE_runs_within_row (RLE.mkPoint 2 2 1) Fixtures.origin_index {[ 7 ]}
                  RLE.nowhere RLE.nowhere RLE.nowhere [] (RLE.mkPoint 0 0 0) Fixtures.block_2x2
                  eq_refl Hok)).
Defined.

(** * Properties of PutVoxels *)

Section PutVoxelsProps.
Import LabelIndex Put.

Variables Voxels ROI Extents : Type.
Variable GetROI : Z -> string -> Voxels -> string + option ROI.
Variable BlockAligned : Voxels -> bool.
Variable index_spans : Voxels -> list (string + list IZYXString).
Variable InsideFast : ROI -> IZYXString -> bool.
Variable AdjustPoints : Extents -> Voxels -> Extents * bool.
Variable AdjustIndices : Extents -> list IZYXString -> Extents * bool.
Variable WriteBlock : Voxels -> IZYXString -> string + list byte.
Variable encode : list byte -> string + list byte.
Variable getLabelBlock : option (list byte) -> string + list byte.

Let PutVoxels :=
  Put.PutVoxels Voxels ROI Extents GetROI BlockAligned index_spans InsideFast
                AdjustPoints AdjustIndices WriteBlock encode getLabelBlock.

(** C8.  For every PUT whose voxel geometry is not aligned to the block
    size of the instance, [PutVoxels] returns an error and changes no
    state: no block value is written and no block is handed to the index
    handler, so that no block change is sent and no label index record is
    updated (nor are the extents or the mutation counter). *)
Theorem PutVoxels_unaligned (v : Z) (vox : Voxels) (roiname : string)
    (mutate : bool) (st : state Extents) :
  BlockAligned vox = false ->
  exists msg, PutVoxels v vox roiname mutate st = (st, Failed msg).
Proof.
  intros Hna. unfold PutVoxels, Put.PutVoxels.
  destruct (GetROI v roiname vox) as [err|r]; [eauto|].
  rewrite Hna. cbn [negb]. eauto.
Qed.

End PutVoxelsProps.

Section PutProps.
Import LabelIndex Put PutExample.

(** An aligned PUT does change the state: the block is stored and handed
    over, and the mutation is committed. *)
Example PutVoxels_aligned_writes :
  let r := PutVoxels 0 (0, 2) "" false fresh in
  r.2 = Returned ()
  /\ st_blocks r.1 !! (be32 0 ++ be32 0 ++ be32 0) = Some (le64 7 ++ le64 7)
  /\ st_sent r.1 = [Block (be32 0 ++ be32 0 ++ be32 0) (le64 7 ++ le64 7) 1]
  /\ st_commits r.1 = [1].
Proof. vm_compute. repeat split. Qed.

Lemma PutVoxels_unaligned_witness :
  exists msg, PutVoxels 0 (1, 2) "" false fresh = (fresh, Failed msg).
Proof.
  exact (PutVoxels_unaligned Voxels unit unit
           (fun _ _ _ => inr None) BlockAligned index_spans (fun _ _ => true)
           (fun e _ => (e, false)) (fun e _ => (e, false))
           (fun _ _ => inr (le64 7 ++ le64 7))
           (fun b => inr b)
           (fun _ => inr [])
           0 (1, 2) "" false fresh eq_refl).
Defined.

End PutProps.

(** * Further properties of storage/context.go *)

Section StorageMore.
Import Storage.

(** The metadata key layout round-trips as well. *)
Theorem Metadata_IndexFromKey_ConstructKey (index : list byte) :
  MetadataContext.IndexFromKey (MetadataContext.ConstructKey index) = Returned index.
Proof.
  rewrite Metadata_IndexFromKey_cases. unfold MetadataContext.ConstructKey.
  cbn [app]. rewrite bool_decide_eq_true_2 by reflexivity. reflexivity.
Qed.

(** The two key families are apart: each codec answers a key of the
    other family with its wrong-keyspace error, whatever the index. *)
Theorem key_families_disjoint (ctx : DataContext) (index : list byte) :
  IndexFromKey ctx (MetadataContext.ConstructKey index) = Failed err_data
  /\ MetadataContext.IndexFromKey (ConstructKey ctx index) = Failed err_metadata.
Proof.
  rewrite Metadata_IndexFromKey_cases, Data_IndexFromKey_cases.
  unfold MetadataContext.ConstructKey, ConstructKey. cbn [app].
  split; rewrite bool_decide_eq_false_2; try reflexivity; discriminate.
Qed.

(** A data key parses to what lies between its first five and its last
    four bytes. *)
Lemma IndexFromKey_layout (ctx : DataContext) (id index ver : list byte) :
  length id = 4%nat -> length ver = 4%nat ->
  IndexFromKey ctx (([dataKeyPrefix] ++ id) ++ index ++ ver) = Returned index.
Proof.
  intros Hid Hver. unfold IndexFromKey.
  replace (go_index (([dataKeyPrefix] ++ id) ++ index ++ ver) 0)
    with (Returned dataKeyPrefix).
  2:{ unfold go_index. rewrite bool_decide_eq_true_2; [reflexivity|].
      rewrite !length_app. cbn [length]. lia. }
  cbn [obind]. rewrite bool_decide_eq_false_2 by tauto.
  pose proof (go_slice_middle ([dataKeyPrefix] ++ id) index ver) as H.
  rewrite <- H. f_equal.
  - rewrite length_app, Hid. reflexivity.
  - rewrite Hver. reflexivity.
Qed.

(** [DataContext.IndexFromKey] looks at the prefix byte only: it checks
    neither the instance nor the version of the key, so a key built by one
    context is parsed, to the same index, by every other context; and so
    are the minimal and the maximal version key of the index. *)
Theorem IndexFromKey_foreign_key (ctx ctx' : DataContext) (index : list byte) :
  IndexFromKey ctx' (ConstructKey ctx index) = Returned index
  /\ IndexFromKey ctx' (MinVersionKey ctx index) = Returned index
  /\ IndexFromKey ctx' (MaxVersionKey ctx index) = Returned index.
Proof.
  unfold ConstructKey, MinVersionKey, MaxVersionKey.
  rewrite <- !(app_assoc _ index).
  repeat split; apply IndexFromKey_layout; reflexivity.
Qed.

Lemma key_leb_app (p a b : list byte) : key_leb (p ++ a) (p ++ b) = key_leb a b.
Proof.
  induction p as [|x p IH]; [reflexivity|].
  cbn [app key_leb]. rewrite Z.ltb_irrefl. exact IH.
Qed.

Lemma mod_256_byte (x : Z) : 0 <= x mod 256 <= 255.
Proof. pose proof (Z.mod_pos_bound x 256). lia. Qed.

Lemma be32_bytes (v : Z) : Forall (fun b => 0 <= b <= 255) (be32 v).
Proof.
  unfold be32.
  repeat (constructor; [apply mod_256_byte|]). constructor.
Qed.

Lemma key_leb_zero (a b c d : Z) :
  0 <= a -> 0 <= b -> 0 <= c -> 0 <= d -> key_leb [0; 0; 0; 0] [a; b; c; d] = true.
Proof.
  intros. cbn [key_leb].
  repeat match goal with
         | |- context [?x <? ?y] =>
             destruct (Z.ltb_spec x y); try reflexivity; try lia
         end.
Qed.

Lemma key_leb_max (a b c d : Z) :
  a <= 255 -> b <= 255 -> c <= 255 -> d <= 255 ->
  key_leb [a; b; c; d] [255; 255; 255; 255] = true.
Proof.
  intros. cbn [key_leb].
  repeat match goal with
         | |- context [?x <? ?y] =>
             destruct (Z.ltb_spec x y); try reflexivity; try lia
         end.
Qed.

(** The minimal and the maximal version key bracket, in the byte order of
    the store, the key of the same instance and index at every version. *)
Theorem version_keys_bracket (ctx : DataContext) (index : list byte) :
  key_leb (MinVersionKey ctx index) (ConstructKey ctx index) = true
  /\ key_leb (ConstructKey ctx index) (MaxVersionKey ctx index) = true.
Proof.
  unfold MinVersionKey, ConstructKey, MaxVersionKey. rewrite !key_leb_app.
  unfold VersionID_Bytes.
  pose proof (be32_bytes (wrap_u32 (version ctx))) as Hb.
  remember (wrap_u32 (version ctx)) as v. unfold be32 in Hb |- *.
  apply Forall_cons in Hb as [H1 Hb]. apply Forall_cons in Hb as [H2 Hb].
  apply Forall_cons in Hb as [H3 Hb]. apply Forall_cons in Hb as [H4 _].
  split.
  - change (wrap_u32 0) with 0. change (0 `div` 2 ^ 24) with 0.
    change (0 `div` 2 ^ 16) with 0. change (0 `div` 2 ^ 8) with 0.
    change (0 `mod` 256) with 0. apply key_leb_zero; lia.
  - change ((wrap_u32 MaxVersionID `div` 2 ^ 24) `mod` 256) with 255.
    change ((wrap_u32 MaxVersionID `div` 2 ^ 16) `mod` 256) with 255.
    change ((wrap_u32 MaxVersionID `div` 2 ^ 8) `mod` 256) with 255.
    change (wrap_u32 MaxVersionID `mod` 256) with 255.
    apply key_leb_max; lia.
Qed.

Lemma be32_value (v : Z) :
  0 <= v < 2 ^ 32 ->
  v = ((v / 2 ^ 24) mod 256) * 2 ^ 24 + ((v / 2 ^ 16) mod 256) * 2 ^ 16
      + ((v / 2 ^ 8) mod 256) * 2 ^ 8 + v mod 256.
Proof.
  intros Hv.
  pose proof (Z.div_mod v 256 ltac:(lia)) as H0.
  pose proof (Z.div_mod (v / 2 ^ 8) 256 ltac:(lia)) as H1.
  pose proof (Z.div_mod (v / 2 ^ 16) 256 ltac:(lia)) as H2.
  assert (E1 : v / 2 ^ 8 / 256 = v / 2 ^ 16).
  { rewrite Z.div_div by lia. reflexivity. }
  assert (E2 : v / 2 ^ 16 / 256 = v / 2 ^ 24).
  { rewrite Z.div_div by lia. reflexivity. }
  assert (H3 : 0 <= v / 2 ^ 24 < 256).
  { split; [apply Z.div_pos; lia|apply Z.div_lt_upper_bound; lia]. }
  rewrite (Z.mod_small (v / 2 ^ 24)) by exact H3.
  change (2 ^ 8) with 256 in *. rewrite E1 in H1. rewrite E2 in H2. lia.
Qed.

Lemma be32_inj (v w : Z) :
  0 <= v < 2 ^ 32 -> 0 <= w < 2 ^ 32 -> be32 v = be32 w -> v = w.
Proof.
  intros Hv Hw H. rewrite (be32_value v Hv), (be32_value w Hw).
  unfold be32 in H. injection H as -> -> -> ->. reflexivity.
Qed.

Lemma wrap_u32_range (z : Z) : 0 <= wrap_u32 z < 2 ^ 32.
Proof. unfold wrap_u32. apply Z.mod_pos_bound. lia. Qed.

(** Two data keys are equal only if they carry the same instance and
    version identifiers (as 32-bit values) and the same index: no two
    logical records share a key. *)
Theorem ConstructKey_inj (ctx1 ctx2 : DataContext) (index1 index2 : list byte) :
  ConstructKey ctx1 index1 = ConstructKey ctx2 index2 ->
  wrap_u32 (instance ctx1) = wrap_u32 (instance ctx2)
  /\ index1 = index2
  /\ wrap_u32 (version ctx1) = wrap_u32 (version ctx2).
Proof.
  unfold ConstructKey. rewrite <- !(app_assoc _ index1), <- !(app_assoc _ index2).
  intros H.
  apply app_inj_1 in H as [Hi H]; [|reflexivity].
  apply app_inj_2 in H as [Hx Hv]; [|reflexivity].
  apply app_inv_head in Hi.
  repeat split; [|exact Hx|]; apply be32_inj; auto using wrap_u32_range.
Qed.

Lemma ConstructKey_inj_witness :
  wrap_u32 3 = wrap_u32 3 /\ [7; 8] = [7; 8] /\ wrap_u32 5 = wrap_u32 5.
Proof.
  exact (ConstructKey_inj (NewDataContext 3 5) (NewDataContext 3 5) [7; 8] [7; 8] eq_refl).
Defined.

(** [KeyToIndexZYX] takes the key of any data context to what the index
    decoder makes of its index bytes, and refuses a metadata key without
    consulting the decoder. *)
Theorem KeyToIndexZYX_keys {IndexZYX : Type}
    (IndexFromBytes : list byte -> outcome IndexZYX)
    (ctx : DataContext) (index : list byte) :
  KeyToIndexZYX IndexFromBytes (ConstructKey ctx index)
  = match IndexFromBytes index with
    | Failed err => Failed ("Cannot recover ZYX index from key: " ++ err)
    | r => r
    end
  /\ KeyToIndexZYX IndexFromBytes (MetadataContext.ConstructKey index)
     = Failed ("Cannot convert key to IndexZYX: " ++ err_data).
Proof.
  unfold KeyToIndexZYX. split.
  - unfold ConstructKey. rewrite <- (app_assoc _ index).
    rewrite IndexFromKey_layout by reflexivity.
    destruct (IndexFromBytes index); reflexivity.
  - rewrite Data_IndexFromKey_cases. unfold MetadataContext.ConstructKey.
    cbn [app]. rewrite bool_decide_eq_false_2 by discriminate. reflexivity.
Qed.

End StorageMore.

(** * Further properties of the Meta serialization and of the cache *)

Section MetaMore.
Import LabelIndex.

Lemma le_decode_le_bytes (n : nat) (v : Z) :
  le_decode (le_bytes n v) = v mod 256 ^ Z.of_nat n.
Proof.
  revert v. induction n as [|n IH]; intros v.
  - cbn. rewrite Z.mod_1_r. reflexivity.
  - cbn [le_bytes le_decode]. rewrite IH.
    rewrite Nat2Z.inj_succ, Z.pow_succ_r by lia.
    rewrite (Z.rem_mul_r v 256 (256 ^ Z.of_nat n)) by lia. reflexivity.
Qed.

Lemma le64_le_bytes (v : Z) : le64 v = le_bytes 8 v.
Proof.
  unfold le64. cbn [seq fmap list_fmap le_bytes].
  repeat rewrite Z.div_div by lia.
  change (8 * Z.of_nat 0) with 0. rewrite Z.pow_0_r, Z.div_1_r.
  reflexivity.
Qed.

Lemma le_decode_le64 (v : Z) : 0 <= v < 2 ^ 64 -> le_decode (le64 v) = v.
Proof.
  intros Hv. rewrite le64_le_bytes, le_decode_le_bytes.
  apply Z.mod_small. exact Hv.
Qed.

Lemma copy12_id (b : IZYXString) : length b = 12%nat -> copy12 b = b.
Proof.
  intros Hb. unfold copy12. rewrite take_app_length' by (symmetry; exact Hb).
  reflexivity.
Qed.

Lemma length_concat_copy12 (bs : list IZYXString) :
  length (concat (copy12 <$> bs)) = (length bs * 12)%nat.
Proof.
  induction bs as [|b bs IH]; [reflexivity|].
  cbn [fmap list_fmap concat length]. cbn [fmap] in IH.
  rewrite length_app, length_copy12, IH. lia.
Qed.

Lemma split12_concat (bs : list IZYXString) :
  Forall (fun b => length b = 12%nat) bs ->
  split12 (length bs) (concat (copy12 <$> bs)) = bs.
Proof.
  induction 1 as [|b bs Hb Hbs IH]; [reflexivity|].
  cbn [fmap list_fmap concat length split12]. rewrite (copy12_id b Hb).
  rewrite take_app_length', drop_app_length' by (symmetry; exact Hb).
  f_equal. exact IH.
Qed.

Lemma UnmarshalBinary_MarshalBinary_ok (m : Meta) :
  Meta_ok m -> UnmarshalBinary (MarshalBinary m) = Returned m.
Proof.
  intros [Hv Hb]. unfold UnmarshalBinary.
  rewrite bool_decide_eq_false_2 by (rewrite length_MarshalBinary; lia).
  unfold MarshalBinary.
  rewrite take_app_length', drop_app_length' by (symmetry; apply length_le64).
  rewrite le_decode_le64 by exact Hv.
  unfold IZYXSlice_UnmarshalBinary. rewrite length_concat_copy12.
  rewrite bool_decide_eq_true_2.
  2:{ rewrite Nat2Z.inj_mul. apply Z.mod_mul. lia. }
  rewrite Nat.div_mul by lia. rewrite split12_concat by exact Hb.
  cbn [obind]. destruct m; reflexivity.
Qed.

(** Round trip of the Meta serialization: a Meta with a uint64 voxel count
    and 12-byte block coordinates is read back from its binary form as it
    was; and the binary form has 8 bytes and 12 per block. *)
Theorem Meta_binary_round_trip (m : Meta) :
  Meta_ok m ->
  UnmarshalBinary (MarshalBinary m) = Returned m
  /\ length (MarshalBinary m) = (8 + 12 * length (Blocks m))%nat.
Proof.
  intros Hm. split; [exact (UnmarshalBinary_MarshalBinary_ok m Hm)|].
  apply length_MarshalBinary.
Qed.

Lemma Meta_binary_round_trip_witness :
  UnmarshalBinary (MarshalBinary (mkMeta 10 [Fixtures.block0]))
  = Returned (mkMeta 10 [Fixtures.block0])
  /\ length (MarshalBinary (mkMeta 10 [Fixtures.block0])) = (8 + 12 * 1)%nat.
Proof.
  apply (Meta_binary_round_trip (mkMeta 10 [Fixtures.block0])).
  split; [cbn; lia|]. repeat constructor.
Defined.

End MetaMore.

Section CacheMore.
Import LabelIndex Cache.

Lemma run_ops_never_hits (m : MetaCache) (ops : list cache_op) (now : Z) (h : heap) :
  avail h = ∅ -> Z.of_nat (list_len m) ≠ size m ->
  exists results h',
    run_ops m now ops h = Returned (results, h')
    /\ Forall (fun r => r = None) results /\ avail h' = ∅.
Proof.
  intros Hav Hsz. revert now h Hav.
  induction ops as [|[lbl|lbl mt] ops IH]; intros now h Hav.
  - exists [], h. split; [reflexivity|]. split; [constructor|exact Hav].
  - cbn [run_ops]. rewrite GetLabelMeta_miss by (rewrite Hav; apply lookup_empty).
    cbn [obind snd fst]. destruct (IH (now + 1) h Hav) as (rs & h' & Hrun & Hrs & Hav').
    exists (None :: rs), h'. rewrite Hrun. cbn [obind fst snd].
    split; [reflexivity|]. split; [constructor; auto|exact Hav'].
  - cbn [run_ops]. unfold AddLabelMeta. rewrite Hav, lookup_empty.
    rewrite bool_decide_eq_false_2 by exact Hsz. cbn [obind].
    match goal with |- context [run_ops m (now + 1) ops ?h1] =>
      destruct (IH (now + 1) h1) as (rs & h' & Hrun & Hrs & Hav') end; [reflexivity|].
    exists rs, h'. rewrite Hrun. auto.
Qed.

(** A cache made by [MakeMetaCache] never serves a hit.  Whatever lookups
    and insertions are made through it, in whatever order, no call panics,
    every [GetLabelMeta] returns nil, and the map [avail] stays empty. *)
Theorem MetaCache_never_hits (sz now : Z) (ops : list cache_op) :
  exists results h',
    run_ops (MakeMetaCache sz).1 now ops (MakeMetaCache sz).2 = Returned (results, h')
    /\ Forall (fun r => r = None) results
    /\ avail h' = ∅.
Proof.
  apply run_ops_never_hits.
  - reflexivity.
  - unfold MakeMetaCache, defaultCacheSize. cbn [fst list_len size].
    case_bool_decide; cbn; lia.
Qed.

(** For a label that is in [avail], [AddLabelMeta] replaces the Meta of its
    entry in place, evicts nothing, and the lookup that follows returns the
    new Meta. *)
Theorem AddLabelMeta_present (m : MetaCache) (now now' lbl : Z) (mt : Meta)
    (h : heap) (p : loc) (tm : timedMeta) :
  avail h !! lbl = Some p -> objs h !! p = Some tm ->
  exists h1 h2,
    AddLabelMeta m now lbl mt h = Returned h1
    /\ avail h1 = avail h /\ array h1 = array h
    /\ GetLabelMeta m now' lbl h1 = Returned (Some mt, h2)
    /\ objs h2 !! p = Some (mkTimed (label tm) mt now').
Proof.
  intros Hav Hobj. unfold AddLabelMeta, GetLabelMeta. rewrite Hav, Hobj.
  eexists _, _. split; [reflexivity|]. cbn [avail array objs].
  split; [reflexivity|]. split; [reflexivity|].
  rewrite Hav, lookup_insert_eq. cbn [label meta].
  split; [reflexivity|]. cbn [objs]. apply lookup_insert_eq.
Qed.

Lemma AddLabelMeta_present_witness :
  exists h1 h2,
    AddLabelMeta Fixtures.full_cache.1 30 2 (mkMeta 5 []) Fixtures.full_cache.2 = Returned h1
    /\ avail h1 = avail Fixtures.full_cache.2 /\ array h1 = array Fixtures.full_cache.2
    /\ GetLabelMeta Fixtures.full_cache.1 31 2 h1 = Returned (Some (mkMeta 5 []), h2)
    /\ objs h2 !! 1%nat = Some (mkTimed 2 (mkMeta 5 []) 31).
Proof.
  exact (AddLabelMeta_present Fixtures.full_cache.1 30 31 2 (mkMeta 5 [])
           Fixtures.full_cache.2 1%nat (mkTimed 2 (mkMeta 22 []) 20)
           eq_refl eq_refl).
Defined.

Lemma AddLabelMeta_full_evicts_latest_witness :
  exists h' ev tm,
    AddLabelMeta Fixtures.full_cache.1 30 3 (mkMeta 33 []) Fixtures.full_cache.2 = Returned h'
    /\ (ev, t tm) ∈ [(0%nat, 10); (1%nat, 20)]
    /\ objs Fixtures.full_cache.2 !! ev = Some tm
    /\ avail h' = delete (label tm) (avail Fixtures.full_cache.2)
    /\ (forall p tp, (p, tp) ∈ [(0%nat, 10); (1%nat, 20)] -> tp <= t tm).
Proof.
  apply (AddLabelMeta_full_evicts_latest Fixtures.full_cache.1 30 3 (mkMeta 33 [])
           Fixtures.full_cache.2 [(0%nat, 10); (1%nat, 20)]).
  - reflexivity.
  - reflexivity.
  - cbn. lia.
  - cbn. lia.
  - reflexivity.
Defined.

End CacheMore.

(** * Further properties of the block handlers and of the aggregator *)

Section HandlersMore.
Import LabelIndex Pipeline.

Lemma or_flag_lookup (flag : Z) (pm : gmap Z Z) (l0 lbl : Z) :
  or_flag flag pm l0 !! lbl
  = if decide (l0 = lbl) then Some (Z.lor (default 0 (pm !! lbl)) flag)
    else pm !! lbl.
Proof.
  unfold or_flag. destruct (decide (l0 = lbl)) as [->|Hne].
  - apply lookup_insert_eq.
  - apply lookup_insert_ne. exact Hne.
Qed.

Lemma foldl_or_flag (flag : Z) (lbls : list Z) (pm : gmap Z Z) (lbl : Z) :
  foldl (or_flag flag) pm lbls !! lbl
  = if decide (lbl ∈ lbls) then Some (Z.lor (default 0 (pm !! lbl)) flag)
    else pm !! lbl.
Proof.
  revert pm. induction lbls as [|l0 lbls IH]; intros pm.
  - cbn. rewrite decide_False by apply not_elem_of_nil. reflexivity.
  - cbn [foldl]. rewrite IH, or_flag_lookup.
    destruct (decide (l0 = lbl)) as [->|Hne].
    + rewrite (decide_True (P := lbl ∈ lbl :: lbls)) by set_solver.
      destruct (decide (lbl ∈ lbls)); [|reflexivity].
      cbn [from_option id]. rewrite <- Z.lor_assoc, Z.lor_diag. reflexivity.
    + destruct (decide (lbl ∈ lbls)) as [Hin|Hnin].
      * rewrite decide_True by (apply elem_of_cons; right; exact Hin). reflexivity.
      * rewrite decide_False; [reflexivity|].
        intros [Heq|Hin]%elem_of_cons; [congruence|contradiction].
Qed.

(** The block change of a mutated block flags every label by where it
    occurs: 0x01 for a label of the old block only, 0x02 for a label of the
    new block only, 0x03 for a label of both, and no entry for any other
    label; it is for the block's own coordinate and carries no delta. *)
Theorem handleIndexBlockMutate_flags (index : IZYXString) (prev new : list Z) (lbl : Z) :
  let bc := handleIndexBlockMutate index prev new in
  bc_block bc = index /\ bc_delta bc = ∅
  /\ bc_present bc !! lbl
     = match decide (lbl ∈ prev), decide (lbl ∈ new) with
       | left _, left _ => Some 3
       | left _, right _ => Some presentOld
       | right _, left _ => Some presentNew
       | right _, right _ => None
       end.
Proof.
  cbv zeta. unfold handleIndexBlockMutate. cbn [bc_block bc_delta bc_present].
  split; [reflexivity|]. split; [reflexivity|].
  rewrite !foldl_or_flag, lookup_empty.
  destruct (decide (lbl ∈ prev)), (decide (lbl ∈ new)); reflexivity.
Qed.

(** The block change of an ingested block flags exactly the labels of the
    block, each with 0x02. *)
Theorem handleIndexBlockIngest_flags (index : IZYXString) (new : list Z) (lbl : Z) :
  let bc := handleIndexBlockIngest index new in
  bc_block bc = index /\ bc_delta bc = ∅
  /\ bc_present bc !! lbl = if decide (lbl ∈ new) then Some presentNew else None.
Proof.
  cbv zeta. unfold handleIndexBlockIngest. cbn [bc_block bc_delta bc_present].
  split; [reflexivity|]. split; [reflexivity|].
  rewrite foldl_or_flag, lookup_empty.
  destruct (decide (lbl ∈ new)); reflexivity.
Qed.

End HandlersMore.

Section AggregatorMore.
Import LabelIndex Pipeline.

Lemma bdm_of_spec (ldm : labelDiffMap) (lbl : Z) :
  (bdm_of ldm lbl).2 = default ∅ (ldm !! lbl)
  /\ forall l', (bdm_of ldm lbl).1 !! l'
                = if decide (lbl = l') then Some (default ∅ (ldm !! lbl)) else ldm !! l'.
Proof.
  unfold bdm_of. destruct (ldm !! lbl) as [bdm|] eqn:Hl; cbn [fst snd from_option id].
  - split; [reflexivity|]. intros l'. destruct (decide (lbl = l')) as [<-|]; auto.
  - split; [reflexivity|]. intros l'. destruct (decide (lbl = l')) as [<-|Hne].
    + apply lookup_insert_eq.
    + apply lookup_insert_ne. exact Hne.
Qed.

Lemma entry_insert (ldm : labelDiffMap) (l0 lbl : Z) (bdm : blockDiffMap)
    (b0 block : IZYXString) (d : labelDiff) :
  entry (<[l0 := <[b0 := d]> bdm]> ldm) lbl block
  = if decide (l0 = lbl) then
      (if decide (b0 = block) then Some d else bdm !! block)
    else entry ldm lbl block.
Proof.
  unfold entry. destruct (decide (l0 = lbl)) as [->|Hne].
  - rewrite lookup_insert_eq. cbn. destruct (decide (b0 = block)) as [->|Hnb].
    + apply lookup_insert_eq.
    + apply lookup_insert_ne. exact Hnb.
  - rewrite lookup_insert_ne by exact Hne. reflexivity.
Qed.

(** What one pass of the first loop does to the entry of a label and a
    block. *)
Lemma entry_present_step (b0 : IZYXString) (ldm : labelDiffMap) (l0 flag : Z)
    (lbl : Z) (block : IZYXString) :
  entry (present_step b0 ldm (l0, flag)) lbl block
  = if decide (l0 = lbl /\ b0 = block /\ flag_ok flag = true)
    then Some (mkDiff 0 (negb (flag =? 1)))
    else entry ldm lbl block.
Proof.
  unfold present_step. destruct (bdm_of_spec ldm l0) as [H2 H1].
  destruct (bdm_of ldm l0) as [ldm' bdm]. cbn [fst snd] in H1, H2. subst bdm.
  assert (Hsame : entry ldm' lbl block = entry ldm lbl block).
  { unfold entry. rewrite H1. destruct (decide (l0 = lbl)) as [->|]; [|reflexivity].
    destruct (ldm !! lbl); reflexivity. }
  assert (Hb : l0 = lbl -> default ∅ (ldm !! l0) !! block = entry ldm lbl block).
  { intros ->. unfold entry. destruct (ldm !! lbl); [reflexivity|].
    cbn. apply lookup_empty. }
  unfold flag_ok.
  destruct (flag =? 1) eqn:E1; [|destruct (flag =? 2) eqn:E2; [|destruct (flag =? 3) eqn:E3]];
    cbn [orb negb]; rewrite ?entry_insert;
    repeat case_decide; try reflexivity; try tauto; try congruence; auto;
    try (exfalso; naive_solver).
Qed.

(** The second loop leaves every entry as it is. *)
Lemma entry_delta_step (b0 : IZYXString) (ldm : labelDiffMap) (e : Z * Z)
    (lbl : Z) (block : IZYXString) :
  entry (delta_step b0 ldm e) lbl block = entry ldm lbl block.
Proof.
  destruct e as [l0 d]. unfold delta_step.
  destruct (bdm_of_spec ldm l0) as [_ H1].
  destruct (bdm_of ldm l0) as [ldm' bdm]. cbn [fst] in H1.
  unfold entry. rewrite H1. destruct (decide (l0 = lbl)) as [->|]; [|reflexivity].
  destruct (ldm !! lbl); reflexivity.
Qed.

Lemma entry_foldl_delta (b0 : IZYXString) (es : list (Z * Z)) (ldm : labelDiffMap)
    (lbl : Z) (block : IZYXString) :
  entry (foldl (delta_step b0) ldm es) lbl block = entry ldm lbl block.
Proof.
  revert ldm. induction es as [|e es IH]; intros ldm; [reflexivity|].
  cbn [foldl]. rewrite IH. apply entry_delta_step.
Qed.

Lemma entry_foldl_present (b0 : IZYXString) (es : list (Z * Z)) (ldm : labelDiffMap)
    (lbl : Z) (block : IZYXString) :
  NoDup es.*1 ->
  entry (foldl (present_step b0) ldm es) lbl block
  = match (list_to_map es : gmap Z Z) !! lbl with
    | Some flag =>
        if decide (b0 = block /\ flag_ok flag = true)
        then Some (mkDiff 0 (negb (flag =? 1)))
        else entry ldm lbl block
    | None => entry ldm lbl block
    end.
Proof.
  revert ldm. induction es as [|[l0 f0] es IH]; intros ldm Hnd; [reflexivity|].
  apply NoDup_cons in Hnd as [Hnot Hnd].
  cbn [foldl list_to_map foldr uncurry]. rewrite IH by exact Hnd.
  rewrite entry_present_step. cbn [fst snd].
  destruct (decide (l0 = lbl)) as [->|Hne].
  - rewrite lookup_insert_eq.
    rewrite (not_elem_of_list_to_map_1 es lbl) by exact Hnot.
    repeat case_decide; try reflexivity; tauto.
  - rewrite lookup_insert_ne by exact Hne.
    rewrite (decide_False (P := l0 = lbl /\ _)) by tauto. reflexivity.
Qed.

(** What the aggregator does with one block change: for the block of the
    change and a label it flags 0x01, 0x02 or 0x03, the entry becomes
    [{delta: 0, present: flag != 0x01}]; every other entry stays. *)
Lemma entry_aggregate_change (ldm : labelDiffMap) (change : blockChange)
    (lbl : Z) (block : IZYXString) :
  entry (aggregate_change ldm change) lbl block
  = match bc_present change !! lbl with
    | Some flag =>
        if decide (bc_block change = block /\ flag_ok flag = true)
        then Some (mkDiff 0 (negb (flag =? 1)))
        else entry ldm lbl block
    | None => entry ldm lbl block
    end.
Proof.
  unfold aggregate_change. rewrite entry_foldl_delta.
  rewrite entry_foldl_present by apply NoDup_fst_map_to_list.
  rewrite list_to_map_to_list. reflexivity.
Qed.

Lemma entry_foldl_other (changes : list blockChange) (ldm : labelDiffMap)
    (lbl : Z) (block : IZYXString) :
  block ∉ bc_block <$> changes ->
  entry (foldl aggregate_change ldm changes) lbl block = entry ldm lbl block.
Proof.
  revert ldm. induction changes as [|c changes IH]; intros ldm Hnot; [reflexivity|].
  cbn [foldl]. rewrite IH by set_solver. rewrite entry_aggregate_change.
  destruct (bc_present c !! lbl); [|reflexivity].
  rewrite decide_False; [reflexivity|]. intros [Hb _]. apply Hnot.
  rewrite <- Hb. set_solver.
Qed.

Lemma entry_foldl_aggregate (changes : list blockChange) (ldm : labelDiffMap)
    (change : blockChange) (lbl flag : Z) :
  NoDup (bc_block <$> changes) ->
  change ∈ changes ->
  bc_present change !! lbl = Some flag -> flag_ok flag = true ->
  entry (foldl aggregate_change ldm changes) lbl (bc_block change)
  = Some (mkDiff 0 (negb (flag =? 1))).
Proof.
  revert ldm. induction changes as [|c changes IH]; intros ldm Hnd Hin Hf Hok.
  - apply elem_of_nil in Hin. contradiction.
  - cbn [fmap list_fmap] in Hnd. apply NoDup_cons in Hnd as [Hnot Hnd].
    cbn [foldl]. apply elem_of_cons in Hin as [->|Hin].
    + rewrite entry_foldl_other by exact Hnot.
      rewrite entry_aggregate_change, Hf. rewrite decide_True by tauto. reflexivity.
    + apply IH; assumption.
Qed.

(** The label index update of a PUT.  When the block changes received are
    for pairwise distinct blocks, then for every change and every label it
    flags 0x01, 0x02 or 0x03 the aggregated map holds, for that label and
    block, the diff [{delta: 0, present: flag != 0x01}]: the block is to be
    added for a label of the new block and deleted for a label of the old
    block only. *)
Theorem aggregate_presence (changes : list blockChange) (change : blockChange)
    (lbl flag : Z) :
  NoDup (bc_block <$> changes) ->
  change ∈ changes ->
  bc_present change !! lbl = Some flag -> flag_ok flag = true ->
  exists bdm,
    aggregate changes !! lbl = Some bdm
    /\ bdm !! bc_block change = Some (mkDiff 0 (negb (flag =? 1))).
Proof.
  intros Hnd Hin Hf Hok.
  pose proof (entry_foldl_aggregate changes ∅ change lbl flag Hnd Hin Hf Hok) as He.
  unfold entry in He. fold (aggregate changes) in He.
  destruct (aggregate changes !! lbl) as [bdm|]; [|discriminate].
  exists bdm. split; [reflexivity|exact He].
Qed.

Lemma aggregate_presence_witness :
  exists bdm,
    aggregate [handleIndexBlockMutate Fixtures.block0 [1; 2] [2; 3]] !! 1 = Some bdm
    /\ bdm !! Fixtures.block0 = Some (mkDiff 0 false).
Proof.
  apply (aggregate_presence [handleIndexBlockMutate Fixtures.block0 [1; 2] [2; 3]]
           (handleIndexBlockMutate Fixtures.block0 [1; 2] [2; 3]) 1 1).
  - repeat constructor. apply not_elem_of_nil.
  - apply list_elem_of_singleton. reflexivity.
  - vm_compute. reflexivity.
  - reflexivity.
Defined.

End AggregatorMore.

(** * Further properties of the label index records and of the worker *)

Section WorkerMore.
Import LabelIndex Pipeline.



Lemma GetLabelMeta_loop_ext (kv1 kv2 : kvstore) (n : nat) (lbls : list Z)
    (voxels : Z) (blocks : list IZYXString) :
  (forall l, l ∈ lbls -> store_Get kv1 l = store_Get kv2 l) ->
  GetLabelMeta_loop kv1 n lbls voxels blocks = GetLabelMeta_loop kv2 n lbls voxels blocks.
Proof.
  revert voxels blocks. induction lbls as [|l lbls IH]; intros voxels blocks H;
    [reflexivity|].
  cbn [GetLabelMeta_loop]. rewrite (H l) by (apply elem_of_cons; left; reflexivity).
  assert (H' : forall l', l' ∈ lbls -> store_Get kv1 l' = store_Get kv2 l').
  { intros l' Hl'. apply H. apply elem_of_cons. right. exact Hl'. }
  case_bool_decide; [|apply IH; exact H'].
  destruct (UnmarshalBinary (store_Get kv2 l)) as [meta| |]; cbn [obind];
    try reflexivity.
  repeat case_bool_decide; apply IH; exact H'.
Qed.

Lemma GetLabelMeta_loop_missing (kv : kvstore) (n : nat) (lbls : list Z)
    (voxels : Z) (blocks : list IZYXString) :
  Forall (fun l => kv !! l = None) lbls ->
  GetLabelMeta_loop kv n lbls voxels blocks = Returned (voxels, blocks).
Proof.
  induction 1 as [|l lbls Hl _ IH]; [reflexivity|].
  cbn [GetLabelMeta_loop]. unfold store_Get. rewrite Hl. cbn [from_option id length].
  rewrite bool_decide_eq_false_2 by tauto. exact IH.
Qed.

Lemma GetLabelMeta_no_record (kv : kvstore) (lbls : list Z) (bounds : Bounds) :
  Forall (fun l => kv !! l = None) lbls ->
  GetLabelMeta kv lbls bounds = Returned (mkMeta 0 []).
Proof.
  intros H. unfold GetLabelMeta. rewrite GetLabelMeta_loop_missing by exact H.
  cbn [obind fst snd]. destruct bounds; reflexivity.
Qed.

(** Labels without a record read as the empty Meta, without an error,
    with block bounds or without. *)
Theorem GetLabelMeta_missing (kv : kvstore) (lbls : list Z) (bounds : Bounds) :
  Forall (fun l => kv !! l = None) lbls ->
  GetLabelMeta kv lbls bounds = Returned (mkMeta 0 []).
Proof. exact (GetLabelMeta_no_record kv lbls bounds). Qed.

Lemma GetLabelMeta_missing_witness :
  GetLabelMeta Fixtures.kv10 [2; 3] None = Returned (mkMeta 0 []).
Proof.
  apply (GetLabelMeta_missing Fixtures.kv10 [2; 3] None).
  repeat constructor.
Defined.

Lemma GetLabelMeta_single (kv : kvstore) (lbl : Z) (m : Meta) :
  Meta_ok m -> kv !! lbl = Some (MarshalBinary m) ->
  GetLabelMeta kv [lbl] None = Returned m.
Proof.
  intros Hm Hl. unfold GetLabelMeta. cbn [length GetLabelMeta_loop].
  unfold store_Get. rewrite Hl. cbn [from_option id].
  rewrite bool_decide_eq_true_2 by (rewrite length_MarshalBinary; lia).
  rewrite UnmarshalBinary_MarshalBinary_ok by exact Hm. cbn [obind].
  rewrite bool_decide_eq_true_2 by reflexivity. cbn [obind fst snd].
  destruct m; reflexivity.
Qed.

(** Write then read: the Meta stored for a label by [PutLabelMeta] is what
    [GetLabelMeta] returns for that label, and reading labels other than
    that one gives what it gave before. *)
Theorem PutLabelMeta_GetLabelMeta (kv : kvstore) (lbl : Z) (m : Meta)
    (others : list Z) (bounds : Bounds) :
  Meta_ok m -> lbl ∉ others ->
  GetLabelMeta (PutLabelMeta kv lbl m) [lbl] None = Returned m
  /\ GetLabelMeta (PutLabelMeta kv lbl m) others bounds = GetLabelMeta kv others bounds.
Proof.
  intros Hm Hnot. split.
  - apply GetLabelMeta_single; [exact Hm|]. apply lookup_insert_eq.
  - unfold GetLabelMeta. f_equal. apply GetLabelMeta_loop_ext.
    intros l Hl. unfold store_Get, PutLabelMeta.
    rewrite lookup_insert_ne; [reflexivity|]. intros ->. contradiction.
Qed.

Lemma PutLabelMeta_GetLabelMeta_witness :
  GetLabelMeta (PutLabelMeta ∅ 1 (mkMeta 10 [Fixtures.block0])) [1] None
  = Returned (mkMeta 10 [Fixtures.block0])
  /\ GetLabelMeta (PutLabelMeta ∅ 1 (mkMeta 10 [Fixtures.block0])) [2] None
     = GetLabelMeta ∅ [2] None.
Proof.
  apply (PutLabelMeta_GetLabelMeta ∅ 1 (mkMeta 10 [Fixtures.block0]) [2] None).
  - split; [cbn; lia|]. repeat constructor.
  - intros H. apply list_elem_of_singleton in H. discriminate H.
Defined.

End WorkerMore.

Section IndexLabelsMore.
Import LabelIndex Pipeline.

Lemma indexLabels_unused (changes : list labelChange) (w : worker) :
  cache_unused w ->
  exists w', indexLabels w changes = Returned w'
    /\ cache_unused w'
    /\ w_kv w' = foldl read_modify_write (w_kv w) changes.
Proof.
  revert w. induction changes as [|c changes IH]; intros w Hw.
  - exists w. auto.
  - destruct (indexLabels_step_unused w c Hw) as (w1 & Hstep & Hw1 & Hkv1).
    destruct (IH w1 Hw1) as (w2 & Hrun & Hw2 & Hkv2).
    exists w2. cbn [indexLabels foldl]. rewrite Hstep. cbn [obind].
    rewrite Hrun, Hkv2, Hkv1. auto.
Qed.

Lemma worker_start_unused (clock : Z) (kv : kvstore) :
  cache_unused (worker_start clock kv) /\ w_kv (worker_start clock kv) = kv.
Proof. split; [split; [reflexivity|vm_compute; discriminate]|reflexivity]. Qed.

(** An [indexLabels] worker, from its start, handles every sequence of
    label changes without a panic and without ever using its cache: the
    label index records it leaves are those of the plain read-modify-write
    of the changes, one after the other, on the store. *)
Theorem indexLabels_is_read_modify_write (clock : Z) (kv : kvstore)
    (changes : list labelChange) :
  exists w,
    indexLabels (worker_start clock kv) changes = Returned w
    /\ w_kv w = foldl read_modify_write kv changes
    /\ Cache.avail (w_heap w) = ∅.
Proof.
  destruct (worker_start_unused clock kv) as [Hw Hkv].
  destruct (indexLabels_unused changes _ Hw) as (w & Hrun & [Hav _] & Hkvw).
  exists w. rewrite Hkv in Hkvw. auto.
Qed.

Lemma read_modify_write_corrupt (kv : kvstore) (change : labelChange)
    (lbl : Z) (msg : string) :
  store_Get kv lbl ≠ [] -> UnmarshalBinary (store_Get kv lbl) = Failed msg ->
  store_Get (read_modify_write kv change) lbl = store_Get kv lbl.
Proof.
  intros Hne Hbad. unfold read_modify_write.
  destruct (decide (lc_label change = lbl)) as [->|Hother].
  - unfold GetLabelMeta. cbn [length GetLabelMeta_loop].
    rewrite bool_decide_eq_true_2.
    2:{ intros H0. apply Hne. apply length_zero_iff_nil. exact H0. }
    rewrite Hbad. reflexivity.
  - destruct (GetLabelMeta kv [lc_label change] None); try reflexivity.
    unfold PutLabelMeta, store_Get. rewrite lookup_insert_ne by exact Hother.
    reflexivity.
Qed.

(** A corrupt record is never repaired.  If the record stored for a label
    is not empty and cannot be unmarshalled, then whatever label changes
    the worker handles, for that label or for others, the record is left
    exactly as it is: each change to the label is logged and dropped. *)
Theorem indexLabels_corrupt_record_stays (clock : Z) (kv : kvstore)
    (changes : list labelChange) (lbl : Z) (msg : string) :
  store_Get kv lbl ≠ [] -> UnmarshalBinary (store_Get kv lbl) = Failed msg ->
  exists w,
    indexLabels (worker_start clock kv) changes = Returned w
    /\ store_Get (w_kv w) lbl = store_Get kv lbl.
Proof.
  intros Hne Hbad.
  destruct (worker_start_unused clock kv) as [Hw Hkv].
  destruct (indexLabels_unused changes _ Hw) as (w & Hrun & _ & Hkvw).
  exists w. split; [exact Hrun|]. rewrite Hkvw, Hkv. clear - Hne Hbad.
  revert kv Hne Hbad. induction changes as [|c changes IH]; intros kv Hne Hbad;
    [reflexivity|].
  cbn [foldl].
  pose proof (read_modify_write_corrupt kv c lbl msg Hne Hbad) as Hsame.
  rewrite IH; rewrite ?Hsame; auto.
Qed.

Lemma indexLabels_corrupt_record_stays_witness :
  exists w,
    indexLabels (worker_start 0 {[ 1 := [1; 2; 3] ]}) [Fixtures.leave_block0] = Returned w
    /\ store_Get (w_kv w) 1 = store_Get {[ 1 := [1; 2; 3] ]} 1.
Proof.
  apply (indexLabels_corrupt_record_stays 0 {[ 1 := [1; 2; 3] ]}
           [Fixtures.leave_block0] 1 "cannot unmarshal bytes into Meta").
  - discriminate.
  - reflexivity.
Defined.

End IndexLabelsMore.

(** * The voxel count through a PUT *)

Section VoxelCountProps.
Import LabelIndex Pipeline.











End VoxelCountProps.

(** * Further properties of sparse-volume retrieval *)

Section SparseVolMore.
Import LabelIndex Pipeline SparseVol.

Variable within_xy within_xyz : Bounds -> IZYXString -> outcome bool.
Variable write_rles : list IZYXString -> list Z -> Bounds -> outcome (list byte).
Variable slow_rles : list IZYXString -> list Z -> Bounds -> outcome (list byte * Z).
Variable coarse_rles : list IZYXString -> outcome (list byte * Z).
Variable Mapping_Get : Mapping -> Z -> Z * bool.
Variable SerializeData : list byte -> list byte.
Variable lz4_Compress gzip_Write : list byte -> string + list byte.

Lemma FoundSparseVol_loop_unbounded (kv : kvstore) (lbls : list Z) :
  FoundSparseVol_loop within_xyz SerializeData kv None lbls
  = Returned (bool_decide (Exists (fun l => store_Get kv l ≠ []) lbls)).
Proof.
  induction lbls as [|l lbls IH]; cbn [FoundSparseVol_loop].
  - rewrite bool_decide_eq_false_2; [reflexivity|]. intros H. inversion H.
  - destruct (decide (length (store_Get kv l) = 0%nat)) as [Hlen|Hlen].
    + rewrite (bool_decide_eq_true_2 _ Hlen), IH. f_equal.
      apply length_zero_iff_nil in Hlen.
      apply bool_decide_ext. rewrite Exists_cons. tauto.
    + rewrite (bool_decide_eq_false_2 _ Hlen).
      rewrite bool_decide_eq_true_2; [reflexivity|]. apply Exists_cons_hd.
      intros Hnil. apply Hlen. rewrite Hnil. reflexivity.
Qed.

(** Without block bounds [FoundSparseVol] tells whether one of the
    constituent labels has a non-empty index record, and reports a label
    the mapping holds as mapped as not found.  The blocks of the record play
    no part: after [PutLabelMeta] the label is found whatever the Meta
    holds, a Meta without any block included. *)
Theorem FoundSparseVol_unbounded (mp : Mapping) (kv : kvstore) (lbl : Z) (m : Meta) :
  FoundSparseVol within_xyz Mapping_Get SerializeData (Some mp) kv lbl None
  = (if (Mapping_Get mp lbl).2 then Returned false
     else Returned (bool_decide (Exists (fun l => store_Get kv l ≠ [])
                                        (ConstituentLabels mp lbl))))
  /\ FoundSparseVol within_xyz Mapping_Get SerializeData None kv lbl None
     = Returned (bool_decide (store_Get kv lbl ≠ []))
  /\ FoundSparseVol within_xyz Mapping_Get SerializeData None (PutLabelMeta kv lbl m) lbl None
     = Returned true.
Proof.
  unfold FoundSparseVol. rewrite !FoundSparseVol_loop_unbounded.
  split; [destruct (Mapping_Get mp lbl).2; reflexivity|].
  split.
  - f_equal. apply bool_decide_ext. rewrite Exists_cons, Exists_nil. tauto.
  - f_equal. apply bool_decide_eq_true_2. apply Exists_cons_hd.
    unfold store_Get, PutLabelMeta. rewrite lookup_insert_eq. cbn [from_option id].
    intros Hnil. pose proof (length_MarshalBinary m) as Hlen.
    rewrite Hnil in Hlen. cbn in Hlen. lia.
Qed.

Lemma GetMappedLabelMeta_missing (kv : kvstore) (lbl : Z) (bounds : Bounds) :
  kv !! lbl = None ->
  GetMappedLabelMeta None kv lbl bounds = Returned (Some (mkMeta 0 []), Some [lbl]).
Proof.
  intros Hl. unfold GetMappedLabelMeta.
  rewrite GetLabelMeta_no_record by (repeat constructor; exact Hl). reflexivity.
Qed.

Lemma GetLegacyRLE_missing (kv : kvstore) (lbl : Z) (bounds : Bounds) (old : bool) :
  kv !! lbl = None ->
  GetLegacyRLE within_xy within_xyz write_rles slow_rles None kv lbl bounds old
  = Returned [].
Proof.
  intros Hl. unfold GetLegacyRLE. rewrite GetMappedLabelMeta_missing by exact Hl.
  cbn [obind]. destruct old; reflexivity.
Qed.

(** A label without an index record is absent, not an error: with no
    mapping, [GetLegacyRLE] returns a nil payload in either format,
    [WriteLegacyRLE] reports not found and writes nothing, whatever the
    compression name is (an unknown one included), [WriteStreamingRLE]
    reports not found, and so does [FoundSparseVol]; no block decoder is
    consulted. *)
Theorem missing_label_absent (kv : kvstore) (lbl : Z) (bounds : Bounds) (old : bool)
    (compression : string) (format : SparseVolFormat) (out : list byte) :
  kv !! lbl = None ->
  GetLegacyRLE within_xy within_xyz write_rles slow_rles None kv lbl bounds old
  = Returned []
  /\ WriteLegacyRLE within_xy within_xyz write_rles slow_rles lz4_Compress gzip_Write
                    None kv lbl bounds compression format out
     = Returned (mkWritten false None out)
  /\ WriteStreamingRLE_found within_xy None kv lbl bounds = Returned false
  /\ FoundSparseVol within_xyz Mapping_Get SerializeData None kv lbl bounds = Returned false.
Proof.
  intros Hl. split; [apply GetLegacyRLE_missing; exact Hl|]. split; [|split].
  - unfold WriteLegacyRLE. rewrite GetLegacyRLE_missing by exact Hl. reflexivity.
  - unfold WriteStreamingRLE_found. rewrite GetMappedLabelMeta_missing by exact Hl.
    reflexivity.
  - unfold FoundSparseVol. cbn [FoundSparseVol_loop]. unfold store_Get.
    rewrite Hl. reflexivity.
Qed.

(** [GetSparseCoarseVol] does not return nil for a label without an index
    record: given that [WriteSerializedRLEs] writes nothing for no block and
    counts 0 spans, the payload is the 12-byte header with a span count of
    0. *)
Theorem GetSparseCoarseVol_missing (kv : kvstore) (lbl : Z) (bounds : Bounds) :
  kv !! lbl = None -> coarse_rles [] = Returned ([], 0) ->
  GetSparseCoarseVol coarse_rles None kv lbl bounds = Returned header
  /\ length header = 12%nat.
Proof.
  intros Hl Hc. split; [|reflexivity]. unfold GetSparseCoarseVol.
  rewrite GetLabelMeta_no_record by (repeat constructor; exact Hl).
  cbn [obind Blocks]. rewrite Hc. reflexivity.
Qed.

End SparseVolMore.

Lemma missing_label_absent_witness :
  SparseVol.GetLegacyRLE (fun _ _ => Returned true) (fun _ _ => Returned true)
    (fun _ _ _ => Returned []) (fun _ _ _ => Returned ([], 0))
    None Fixtures.kv10 2 None false = Returned []
  /\ SparseVol.WriteLegacyRLE (fun _ _ => Returned true) (fun _ _ => Returned true)
       (fun _ _ _ => Returned []) (fun _ _ _ => Returned ([], 0)) inr inr
       None Fixtures.kv10 2 None "bogus" SparseVol.FormatOther [1; 2]
     = Returned (SparseVol.mkWritten false None [1; 2])
  /\ SparseVol.WriteStreamingRLE_found (fun _ _ => Returned true)
       None Fixtures.kv10 2 None = Returned false
  /\ SparseVol.FoundSparseVol (fun _ _ => Returned true) (fun _ l => (l, false))
       (fun b => b)
       None Fixtures.kv10 2 None = Returned false.
Proof.
  exact (missing_label_absent (fun _ _ => Returned true) (fun _ _ => Returned true)
           (fun _ _ _ => Returned []) (fun _ _ _ => Returned ([], 0))
           (fun _ l => (l, false)) (fun b => b) inr inr
           Fixtures.kv10 2 None false "bogus" SparseVol.FormatOther [1; 2] eq_refl).
Defined.

Lemma GetSparseCoarseVol_missing_witness :
  SparseVol.GetSparseCoarseVol (fun _ => Returned ([], 0)) None Fixtures.kv10 2 None
  = Returned SparseVol.header
  /\ length SparseVol.header = 12%nat.
Proof.
  exact (GetSparseCoarseVol_missing (fun _ => Returned ([], 0)) Fixtures.kv10 2 None
           eq_refl eq_refl).
Defined.

(** * Further properties of the run-length scanners *)

Section RLEMore.
Import LabelIndex RLE.

Variable BlockSize : Point3d.
Variable IndexZYX : IZYXString -> outcome Point3d.
Variable lbls : gset Z.
Variable OutsideX OutsideY OutsideZ : Z -> bool.

Lemma for_loop_preserves {St : Type} (P : St -> Prop) (body : St -> Z -> outcome St)
    (n : nat) (i : Z) (s s' : St) :
  (forall s j s', P s -> body s j = Returned s' -> P s') ->
  P s -> for_loop n i body s = Returned s' -> P s'.
Proof.
  intros Hb. revert i s. induction n as [|n IH]; intros i s Hs Hrun.
  - injection Hrun as <-. exact Hs.
  - cbn [for_loop] in Hrun. destruct (body s i) as [s1| |] eqn:Hbody;
      cbn [obind] in Hrun; try discriminate.
    apply (IH (i + 1) s1); [|exact Hrun]. exact (Hb s i s1 Hs Hbody).
Qed.

(** The counter [newRuns] is the number of runs in the buffer, as a
    uint32. *)
Definition counted (st : scan) : Prop :=
  newRuns st = wrap_u32 (Z.of_nat (length (buf st))).

Lemma counted_close_run (st : scan) : counted st -> counted (close_run st).
Proof.
  unfold counted, close_run. intros Hc. case_bool_decide; cbn [newRuns buf]; [|exact Hc].
  rewrite Hc, length_app. cbn [length]. unfold wrap_u32.
  rewrite Zplus_mod_idemp_l. f_equal. lia.
Qed.

Lemma counted_bounded_voxel data y z st x st' :
  counted st -> bounded_voxel lbls OutsideX data y z st x = Returned st' -> counted st'.
Proof.
  intros Hc. unfold bounded_voxel, read_label.
  destruct (go_slice data (start st) (start st + 8)) as [bytes| |]; cbn [obind];
    try discriminate.
  match goal with |- (if ?c then _ else _) = _ -> _ => destruct c end;
    intros [= <-]; [exact Hc|].
  apply counted_close_run. exact Hc.
Qed.

Lemma obind_Returned {A B : Type} (o : outcome A) (k : A -> outcome B) (b : B) :
  obind o k = Returned b -> exists a, o = Returned a /\ k a = Returned b.
Proof. destruct o as [a| |]; cbn [obind]; try discriminate. eauto. Qed.

Lemma addBoundedRLEs_counted izyx data runs n :
  addBoundedRLEs BlockSize IndexZYX lbls OutsideX OutsideY OutsideZ izyx data
  = Returned (runs, n) ->
  n = wrap_u32 (Z.of_nat (length runs)).
Proof.
  unfold addBoundedRLEs. case_bool_decide; [discriminate|].
  intros Hret. apply obind_Returned in Hret as (idx & _ & Hret).
  apply obind_Returned in Hret as (st & Hrun & Hret).
  injection Hret as <- <-.
  unfold for_range in Hrun.
  refine (for_loop_preserves counted _ _ _ _ _ _ _ Hrun); [|reflexivity].
  clear. intros s z s' Hs. destruct (OutsideZ z); [intros [= <-]; exact Hs|].
  unfold for_range. apply for_loop_preserves; [|exact Hs].
  clear. intros s y s' Hs. destruct (OutsideY y); [intros [= <-]; exact Hs|].
  intros Hret. apply obind_Returned in Hret as (st & Hrow & Hret).
  injection Hret as <-. apply counted_close_run.
  unfold for_range in Hrow.
  refine (for_loop_preserves counted _ _ _ _ _ _ Hs Hrow).
  intros s1 x s2. apply counted_bounded_voxel.
Qed.

End RLEMore.

(** The run count the scanners return beside the buffer is the number of
    runs they wrote to it (as a uint32), for every block, label set and
    bounds on which they return. *)
Theorem RLE_newRuns_counts
    (BlockSize : RLE.Point3d)
    (IndexZYX : LabelIndex.IZYXString -> outcome RLE.Point3d)
    (lbls : gset Z) (OutsideX OutsideY OutsideZ : Z -> bool)
    (izyx : LabelIndex.IZYXString) (data : list byte) (runs : list RLE.Run) (n : Z) :
  (RLE.addBoundedRLEs BlockSize IndexZYX lbls OutsideX OutsideY OutsideZ izyx data
   = Returned (runs, n) ->
   n = wrap_u32 (Z.of_nat (length runs)))
  /\ (RLE.addRLEs BlockSize IndexZYX lbls izyx data = Returned (runs, n) ->
      n = wrap_u32 (Z.of_nat (length runs))).
Proof.
  split.
  - apply addBoundedRLEs_counted.
  - rewrite addRLEs_addBoundedRLEs. apply addBoundedRLEs_counted.
Qed.

Lemma RLE_newRuns_counts_witness :
  2 = wrap_u32 (Z.of_nat (length [RLE.mkRun (RLE.mkPoint 0 0 0) 2;
                                  RLE.mkRun (RLE.mkPoint 0 1 0) 1])).
Proof.
  refine (proj2 (RLE_newRuns_counts (RLE.mkPoint 2 2 1) Fixtures.origin_index {[ 7 ]}
                   RLE.nowhere RLE.nowhere RLE.nowhere [] Fixtures.block_2x2
                   [RLE.mkRun (RLE.mkPoint 0 0 0) 2; RLE.mkRun (RLE.mkPoint 0 1 0) 1] 2) _).
  vm_compute. reflexivity.
Defined.

(** With no voxel bound set, [addBoundedRLEs] does what [addRLEs] does,
    on every input: the same runs and count, the same error, the same
    panic. *)
Theorem addRLEs_is_unbounded_scan
    (BlockSize : RLE.Point3d)
    (IndexZYX : LabelIndex.IZYXString -> outcome RLE.Point3d)
    (lbls : gset Z) (izyx : LabelIndex.IZYXString) (data : list byte) :
  RLE.addBoundedRLEs BlockSize IndexZYX lbls RLE.nowhere RLE.nowhere RLE.nowhere izyx data
  = RLE.addRLEs BlockSize IndexZYX lbls izyx data.
Proof. symmetry. apply addRLEs_addBoundedRLEs. Qed.

(** The runs cover the requested voxels, each once: on a well-formed
    block the lengths of the runs emitted add up to the number of voxels of
    the block that carry a non-zero label of the requested set (and are
    within the voxel bounds, for [addBoundedRLEs]). *)
Theorem RLE_runs_cover_requested
    (BlockSize : RLE.Point3d)
    (IndexZYX : LabelIndex.IZYXString -> outcome RLE.Point3d)
    (lbls : gset Z) (OutsideX OutsideY OutsideZ : Z -> bool)
    (izyx : LabelIndex.IZYXString) (idx : RLE.Point3d) (data : list byte) :
  IndexZYX izyx = Returned idx ->
  RLE.block_ok BlockSize idx data ->
  (exists runs n,
      RLE.addRLEs BlockSize IndexZYX lbls izyx data = Returned (runs, n)
      /\ RLE.total_length runs
         = RLE.requested_voxels BlockSize lbls RLE.nowhere RLE.nowhere RLE.nowhere data idx)
  /\ (exists runs n,
        RLE.addBoundedRLEs BlockSize IndexZYX lbls OutsideX OutsideY OutsideZ izyx data
        = Returned (runs, n)
        /\ RLE.total_length runs
           = RLE.requested_voxels BlockSize lbls OutsideX OutsideY OutsideZ data idx).
Proof.
  intros Hidx Hok. split.
  - rewrite addRLEs_addBoundedRLEs.
    exact (addBoundedRLEs_covers BlockSize IndexZYX lbls RLE.nowhere RLE.nowhere
                                 RLE.nowhere idx data Hok izyx Hidx).
  - exact (addBoundedRLEs_covers BlockSize IndexZYX lbls OutsideX OutsideY OutsideZ
                                 idx data Hok izyx Hidx).
Qed.

Lemma RLE_runs_cover_requested_witness :
  exists runs n,
    RLE.addRLEs (RLE.mkPoint 2 2 1) Fixtures.origin_index {[ 7 ]} [] Fixtures.block_2x2
    = Returned (runs, n)
    /\ RLE.total_length runs
       = RLE.requested_voxels (RLE.mkPoint 2 2 1) {[ 7 ]} RLE.nowhere RLE.nowhere
                              RLE.nowhere Fixtures.block_2x2 (RLE.mkPoint 0 0 0).
Proof.
  assert (Hok : RLE.block_ok (RLE.mkPoint 2 2 1) (RLE.mkPoint 0 0 0) Fixtures.block_2x2).
  { unfold RLE.block_ok. cbn [RLE.px RLE.py RLE.pz].
    change (length Fixtures.block_2x2) with 32%nat. lia. }
  exact (proj1 (RLE_runs_cover_requested (RLE.mkPoint 2 2 1) Fixtures.origin_index {[ 7 ]}
                  RLE.nowhere RLE.nowhere RLE.nowhere [] (RLE.mkPoint 0 0 0)
                  Fixtures.block_2x2 eq_refl Hok)).
Defined.

(** * Further properties of PutVoxels *)

Section PutVoxelsMore.
Import LabelIndex Put.

Variables Voxels ROI Extents : Type.
Variable GetROI : Z -> string -> Voxels -> string + option ROI.
Variable BlockAligned : Voxels -> bool.
Variable index_spans : Voxels -> list (string + list IZYXString).
Variable InsideFast : ROI -> IZYXString -> bool.
Variable AdjustPoints : Extents -> Voxels -> Extents * bool.
Variable AdjustIndices : Extents -> list IZYXString -> Extents * bool.
Variable WriteBlock : Voxels -> IZYXString -> string + list byte.
Variable encode : list byte -> string + list byte.
Variable getLabelBlock : option (list byte) -> string + list byte.

Let putChunk := Put.putChunk Voxels Extents WriteBlock encode getLabelBlock.
Let put_spans :=
  Put.put_spans Voxels ROI Extents InsideFast AdjustIndices WriteBlock encode
                getLabelBlock.
Let span_ids := Put.span_ids ROI InsideFast.
Let targeted := Put.targeted Voxels ROI index_spans InsideFast.
Let stored := Put.stored Voxels Extents WriteBlock encode.
Let chunks_inv := Put.chunks_inv Voxels Extents WriteBlock encode.









End PutVoxelsMore.


(** * Properties of PutBlocks *)

Section PutBlocksMore.
Import PutBlocks.

Variable numBlockBytes : Z.
Variable ser : list byte -> list byte.
Variable decodeLabelBlock : option (list byte) -> outcome (list byte).

Let loop := PutBlocks_loop numBlockBytes (fun b => Returned (ser b)) decodeLabelBlock.
Let puts := block_puts numBlockBytes ser.
Let events := ingest_events numBlockBytes.

Lemma write_batch_app store b1 b2 :
  write_batch store (b1 ++ b2) = write_batch (write_batch store b1) b2.
Proof. unfold write_batch. apply foldl_app. Qed.

Lemma read_block_full (data : list byte) :
  0 <= numBlockBytes <= Z.of_nat (length data) ->
  read_block numBlockBytes data
  = Some (take (Z.to_nat numBlockBytes) data, drop (Z.to_nat numBlockBytes) data)
  /\ Z.of_nat (length (drop (Z.to_nat numBlockBytes) data))
     = Z.of_nat (length data) - numBlockBytes.
Proof.
  intros H. unfold read_block. rewrite bool_decide_eq_true_2 by lia.
  split; [reflexivity|]. rewrite length_drop. lia.
Qed.

(** The passes of the loop up to the one that reads the last block of the
    span. *)
Lemma loop_complete (j : nat) :
  forall (fuel : nat) mutID pt readBlocks span data st,
    (1 <= j <= fuel)%nat -> 0 <= numBlockBytes ->
    span = readBlocks + Z.of_nat j ->
    Z.of_nat j * numBlockBytes <= Z.of_nat (length data) ->
    exists st',
      loop fuel mutID pt readBlocks span data false st = Some (st', Returned ())
      /\ pb_store st' = write_batch (pb_store st) (pb_batch st ++ puts j pt data)
      /\ pb_batch st' = []
      /\ pb_events st' = pb_events st ++ events mutID j pt data.
Proof.
  induction j as [|j IH]; intros fuel mutID pt r span data st Hj Hn Hspan Hlen; [lia|].
  destruct fuel as [|fuel]; [lia|].
  destruct (read_block_full data) as [Hread Hrest]; [nia|].
  unfold loop. cbn [PutBlocks_loop]. rewrite Hread.
  destruct (decide (j = 0%nat)) as [->|Hj0].
  - rewrite (bool_decide_eq_true_2 (r + 1 = span)) by lia. cbn [orb].
    eexists. split; [reflexivity|]. cbn [Commit pb_store pb_batch pb_events].
    repeat split.
  - rewrite (bool_decide_eq_false_2 (r + 1 = span)) by lia. cbn [orb].
    match goal with |- context [PutBlocks_loop _ _ _ fuel mutID ?pt' ?r' span ?d' false ?s'] =>
      destruct (IH fuel mutID pt' r' span d' s') as (st' & Hrun & Hst & Hb & He)
    end; [lia|exact Hn|lia|nia|].
    exists st'. split; [exact Hrun|]. split; [|split; [exact Hb|]].
    + rewrite Hst. cbn [puts block_puts].
      case_bool_decide; cbn [Commit pb_store pb_batch app];
        rewrite <- ?write_batch_app, <- ?app_assoc; reflexivity.
    + rewrite He. cbn [events ingest_events].
      case_bool_decide; cbn [Commit pb_events]; rewrite <- app_assoc; reflexivity.
Qed.

(** The passes of the loop on a stream that ends after [k] more blocks,
    while neither the span nor a batch gets full. *)
Lemma loop_short (k : nat) :
  forall (fuel : nat) mutID pt readBlocks span data st q,
    (k < fuel)%nat -> 0 < numBlockBytes ->
    Z.of_nat k * numBlockBytes <= Z.of_nat (length data)
      < (Z.of_nat k + 1) * numBlockBytes ->
    span <= readBlocks \/ readBlocks + Z.of_nat k < span ->
    BatchSize * q <= readBlocks -> readBlocks + Z.of_nat k < BatchSize * (q + 1) ->
    exists st',
      loop fuel mutID pt readBlocks span data false st = Some (st', Failed err_ceased)
      /\ pb_store st' = pb_store st
      /\ pb_batch st' = pb_batch st ++ puts k pt data
      /\ pb_events st' = pb_events st ++ events mutID k pt data.
Proof.
  unfold BatchSize.
  induction k as [|k IH]; intros fuel mutID pt r span data st q Hf Hn Hlen Hspan Hq1 Hq2;
    (destruct fuel as [|fuel]; [lia|]); unfold loop; cbn [PutBlocks_loop].
  - unfold read_block. rewrite bool_decide_eq_false_2 by lia.
    eexists. split; [reflexivity|]. cbn. rewrite !app_nil_r. repeat split.
  - destruct (read_block_full data) as [Hread Hrest]; [nia|].
    rewrite Hread.
    rewrite (bool_decide_eq_false_2 (r + 1 = span)) by lia. cbn [orb].
    rewrite (bool_decide_eq_false_2 ((r + 1) mod BatchSize = 0)).
    2:{ unfold BatchSize. intros Hm.
        pose proof (Z.div_mod (r + 1) 1000 ltac:(lia)) as Hd. rewrite Hm in Hd. nia. }
    match goal with |- context [PutBlocks_loop _ _ _ fuel mutID ?pt' ?r' span ?d' false ?s'] =>
      destruct (IH fuel mutID pt' r' span d' s' q) as (st' & Hrun & Hst & Hb & He)
    end; [lia|exact Hn|nia|lia|lia|lia|].
    exists st'. split; [exact Hrun|]. rewrite Hst, Hb, He.
    cbn [pb_store pb_batch pb_events puts events block_puts ingest_events].
    rewrite <- !app_assoc. repeat split.
Qed.

(** A stream that holds the blocks of the span.  [PutBlocks] returns
    nil; the blocks of the span, and no more of the stream, have reached
    the store, at the block coordinates from [start] on along X, each as
    its serialization; no put is left in a batch; and one ingest event per
    block was delivered, in the same order. *)
Theorem PutBlocks_complete (mutID : Z) (start : ChunkPoint3d) (span : Z)
    (data : list byte) (store : gmap ChunkPoint3d (list byte)) :
  0 <= numBlockBytes -> 1 <= span ->
  span * numBlockBytes <= Z.of_nat (length data) ->
  exists st',
    PutBlocks numBlockBytes (fun b => Returned (ser b)) decodeLabelBlock
              mutID start span data false store = Some (st', Returned ())
    /\ pb_store st'
       = write_batch store (block_puts numBlockBytes ser (Z.to_nat span) start data)
    /\ pb_batch st' = []
    /\ pb_events st' = ingest_events numBlockBytes mutID (Z.to_nat span) start data.
Proof.
  intros Hn Hspan Hlen. unfold PutBlocks.
  rewrite bool_decide_eq_false_2 by lia.
  destruct (loop_complete (Z.to_nat span) (S (length data) + Z.to_nat span) mutID start
              0 span data (mkBlocks store [] []))
    as (st' & Hrun & Hst & Hb & He); [lia|exact Hn|lia|lia|].
  exists st'. split; [exact Hrun|]. split; [exact Hst|]. split; [exact Hb|exact He].
Qed.

(** A stream that ends early.  When the stream holds [k] whole blocks,
    fewer than a batch and fewer than the span asks for (or the span is not
    positive), [PutBlocks] returns the error that the block data ceased,
    and nothing has reached the store: the [k] blocks read are left in the
    batch that is never committed, although their [k] events were
    delivered. *)
Theorem PutBlocks_short_stream (mutID : Z) (start : ChunkPoint3d) (span : Z)
    (data : list byte) (store : gmap ChunkPoint3d (list byte)) (k : nat) :
  0 < numBlockBytes ->
  Z.of_nat k * numBlockBytes <= Z.of_nat (length data) < (Z.of_nat k + 1) * numBlockBytes ->
  Z.of_nat k < BatchSize -> span <= 0 \/ Z.of_nat k < span ->
  exists st',
    PutBlocks numBlockBytes (fun b => Returned (ser b)) decodeLabelBlock
              mutID start span data false store = Some (st', Failed err_ceased)
    /\ pb_store st' = store
    /\ pb_batch st' = block_puts numBlockBytes ser k start data
    /\ pb_events st' = ingest_events numBlockBytes mutID k start data.
Proof.
  intros Hn Hlen Hk Hspan. unfold PutBlocks.
  rewrite bool_decide_eq_false_2 by lia.
  destruct (loop_short k (S (length data) + Z.to_nat span) mutID start
              0 span data (mkBlocks store [] []) 0)
    as (st' & Hrun & Hst & Hb & He); try (unfold BatchSize in *; lia); [nia|].
  exists st'. split; [exact Hrun|]. split; [exact Hst|]. split; [exact Hb|exact He].
Qed.

End PutBlocksMore.

Lemma PutBlocks_complete_witness :
  exists st',
    PutBlocks.PutBlocks 2 (fun b => Returned b) (fun _ => Returned [])
                        7 (0, 0, 0) 2 [1; 2; 3; 4; 5] false ∅
    = Some (st', Returned ())
    /\ PutBlocks.pb_store st'
       = PutBlocks.write_batch ∅
           (PutBlocks.block_puts 2 (fun b => b) (Z.to_nat 2) (0, 0, 0) [1; 2; 3; 4; 5])
    /\ PutBlocks.pb_batch st' = []
    /\ PutBlocks.pb_events st'
       = PutBlocks.ingest_events 2 7 (Z.to_nat 2) (0, 0, 0) [1; 2; 3; 4; 5].
Proof.
  apply (PutBlocks_complete 2 (fun b => b) (fun _ => Returned [])
           7 (0, 0, 0) 2 [1; 2; 3; 4; 5] ∅).
  - lia.
  - lia.
  - cbn. lia.
Defined.

Lemma PutBlocks_short_stream_witness :
  exists st',
    PutBlocks.PutBlocks 2 (fun b => Returned b) (fun _ => Returned [])
                        7 (0, 0, 0) 3 [1; 2; 3; 4; 5] false ∅
    = Some (st', Failed PutBlocks.err_ceased)
    /\ PutBlocks.pb_store st' = ∅
    /\ PutBlocks.pb_batch st'
       = PutBlocks.block_puts 2 (fun b => b) 2 (0, 0, 0) [1; 2; 3; 4; 5]
    /\ PutBlocks.pb_events st'
       = PutBlocks.ingest_events 2 7 2 (0, 0, 0) [1; 2; 3; 4; 5].
Proof.
  apply (PutBlocks_short_stream 2 (fun b => b) (fun _ => Returned [])
           7 (0, 0, 0) 3 [1; 2; 3; 4; 5] ∅ 2).
  - lia.
  - cbn. lia.
  - unfold PutBlocks.BatchSize. lia.
  - right. lia.
Defined.
